(** * Quantum-Computing-Course: the notebooks' circuit builders, verified

    The notebooks build small circuits out of the framework's gates
    (Hadamard, X, CNOT, controlled-phase, SWAP), run them on a state-vector
    simulator and read the measurement counts.  This development embeds

    - the circuit object and the gate calls the notebooks make, with the
      range checks the framework performs on qubit indices;
    - the state-vector semantics of those gates, over exact complex
      amplitudes indexed by the little-endian basis index;
    - the classical post-processing (sifting, distance estimate).
*)

From Stdlib Require Import Reals Lra Lia List Bool Arith NArith ZArith.
From Stdlib Require Import Ascii String.
Import ListNotations.

Local Open Scope R_scope.

(* ================================================================== *)
(** ** Complex amplitudes *)
(* ================================================================== *)

Module Amp.

Definition C : Type := (R * R)%type.

Definition zero : C := (0, 0).
Definition one : C := (1, 0).
Definition add (a b : C) : C := (fst a + fst b, snd a + snd b).
Definition mul (a b : C) : C :=
  (fst a * fst b - snd a * snd b, fst a * snd b + snd a * fst b).
Definition neg (a : C) : C := (- fst a, - snd a).
Definition scale (r : R) (a : C) : C := (r * fst a, r * snd a).
(** [expi t] is e^{i t}. *)
Definition expi (t : R) : C := (cos t, sin t).
(** Squared modulus: the probability weight of an amplitude. *)
Definition norm2 (a : C) : R := fst a * fst a + snd a * snd a.

Lemma c_eq (a b : C) : fst a = fst b -> snd a = snd b -> a = b.
Proof. destruct a, b; simpl; intros; subst; reflexivity. Qed.

Ltac crush := apply c_eq; simpl; try ring.

Lemma mul_comm a b : mul a b = mul b a.
Proof. crush. Qed.

Lemma mul_assoc a b c : mul a (mul b c) = mul (mul a b) c.
Proof. crush. Qed.

Lemma mul_one_l a : mul one a = a.
Proof. crush. Qed.

Lemma mul_one_r a : mul a one = a.
Proof. crush. Qed.

Lemma mul_zero_l a : mul zero a = zero.
Proof. crush. Qed.

Lemma mul_zero_r a : mul a zero = zero.
Proof. crush. Qed.

Lemma expi_inverse t a : mul (expi (- t)) (mul (expi t) a) = a.
Proof.
  unfold expi. rewrite cos_neg, sin_neg.
  pose proof (sin2_cos2 t) as E. unfold Rsqr in E.
  apply c_eq; simpl.
  - transitivity ((sin t * sin t + cos t * cos t) * fst a); [ring|].
    rewrite E; ring.
  - transitivity ((sin t * sin t + cos t * cos t) * snd a); [ring|].
    rewrite E; ring.
Qed.

Lemma inv_sqrt2_sq : / sqrt 2 * / sqrt 2 = / 2.
Proof.
  rewrite <- Rinv_mult. f_equal. apply sqrt_sqrt. lra.
Qed.

Lemma norm2_zero : norm2 zero = 0.
Proof. unfold norm2, zero; simpl; ring. Qed.

Lemma norm2_one : norm2 one = 1.
Proof. unfold norm2, one; simpl; ring. Qed.

End Amp.

(* ================================================================== *)
(** ** Basis indices

    A computational-basis state of the register is a natural number whose
    bit [q] is the value of qubit [q] (the framework's little-endian
    convention). *)
(* ================================================================== *)

Module Bits.

Definition bit (x : N) (q : nat) : bool := N.testbit x (N.of_nat q).
Definition flip (q : nat) (x : N) : N := N.lxor x (N.shiftl 1 (N.of_nat q)).
Definition set1 (q : nat) (x : N) : N := N.setbit x (N.of_nat q).
Definition set0 (q : nat) (x : N) : N := N.clearbit x (N.of_nat q).
Definition put (q : nat) (b : bool) (x : N) : N :=
  if b then set1 q x else set0 q x.
(** Exchange of the values of two qubits. *)
Definition swapbits (a b : nat) (x : N) : N :=
  if Bool.eqb (bit x a) (bit x b) then x else flip a (flip b x).
(** [x] fits in [m] qubits. *)
Definition in_range (m : nat) (x : N) : bool := (x <? 2 ^ N.of_nat m)%N.

Lemma bit_ext x y : (forall i, bit x i = bit y i) -> x = y.
Proof.
  intros E. apply N.bits_inj. intros k.
  specialize (E (N.to_nat k)). unfold bit in E.
  rewrite N2Nat.id in E. exact E.
Qed.

Lemma of_nat_eqb a b : (N.of_nat a =? N.of_nat b)%N = (a =? b)%nat.
Proof.
  destruct (Nat.eqb_spec a b) as [->|NE].
  - apply N.eqb_refl.
  - apply N.eqb_neq. intros E. apply Nat2N.inj in E. contradiction.
Qed.

Lemma bit_flip q x i : bit (flip q x) i = xorb (bit x i) (i =? q)%nat.
Proof.
  unfold bit, flip. rewrite N.lxor_spec. f_equal.
  rewrite N.shiftl_1_l, N.pow2_bits_eqb, of_nat_eqb.
  apply Nat.eqb_sym.
Qed.

Lemma bit_set1 q x i : bit (set1 q x) i = (i =? q)%nat || bit x i.
Proof.
  unfold bit, set1. rewrite N.setbit_eqb, of_nat_eqb.
  rewrite (Nat.eqb_sym q i). reflexivity.
Qed.

Lemma bit_set0 q x i : bit (set0 q x) i = bit x i && negb (i =? q)%nat.
Proof.
  unfold bit, set0. rewrite N.clearbit_eqb, of_nat_eqb.
  rewrite (Nat.eqb_sym q i). reflexivity.
Qed.

Lemma bit_zero i : bit 0 i = false.
Proof. apply N.bits_0. Qed.

Lemma bit_swapbits a b x i :
  bit (swapbits a b x) i =
  if (i =? a)%nat then bit x b else if (i =? b)%nat then bit x a else bit x i.
Proof.
  unfold swapbits.
  destruct (Bool.eqb (bit x a) (bit x b)) eqn:E.
  - apply Bool.eqb_prop in E.
    destruct (Nat.eqb_spec i a) as [->|]; [exact E|].
    destruct (Nat.eqb_spec i b) as [->|]; [symmetry; exact E|reflexivity].
  - apply Bool.eqb_false_iff in E.
    rewrite !bit_flip.
    destruct (Nat.eqb_spec i a) as [Ea|Na]; destruct (Nat.eqb_spec i b) as [Eb|Nb];
      simpl; rewrite ?xorb_false_r; try reflexivity.
    + exfalso. apply E. rewrite <- Ea, <- Eb. reflexivity.
    + rewrite Ea. destruct (bit x a), (bit x b); simpl; congruence.
    + rewrite Eb. destruct (bit x a), (bit x b); simpl; congruence.
Qed.

(** Solves equalities between basis indices bit by bit. *)
Ltac solve_bits :=
  apply bit_ext; intros ?i;
  repeat (rewrite ?bit_swapbits, ?bit_flip, ?bit_set1, ?bit_set0, ?bit_zero);
  repeat match goal with
         | |- context [ (?a =? ?b)%nat ] => destruct (Nat.eqb_spec a b); subst
         end;
  repeat match goal with
         | |- context [ bit ?x ?q ] => destruct (bit x q)
         end;
  simpl; try reflexivity; try congruence; try lia.

Lemma flip_flip q x : flip q (flip q x) = x.
Proof. solve_bits. Qed.

Lemma swapbits_involutive a b x : swapbits a b (swapbits a b x) = x.
Proof.
  apply bit_ext; intros i. rewrite !bit_swapbits.
  rewrite !Nat.eqb_refl.
  destruct (Nat.eqb_spec i a) as [->|Ha].
  - destruct (Nat.eqb_spec b a) as [->|]; reflexivity.
  - destruct (Nat.eqb_spec i b) as [->|]; reflexivity.
Qed.

(** Range: [x] fits in [m] qubits exactly when every higher bit is clear. *)
Lemma in_range_bits m x :
  in_range m x = true <-> (forall i, (m <= i)%nat -> bit x i = false).
Proof.
  unfold in_range, bit. rewrite N.ltb_lt. split.
  - intros L i Hi.
    destruct (N.eq_dec x 0) as [->|NZ]; [apply N.bits_0|].
    apply N.bits_above_log2.
    apply N.log2_lt_pow2 in L; lia.
  - intros Hb.
    destruct (N.eq_dec x 0) as [->|NZ].
    + apply N.neq_0_lt_0, N.pow_nonzero. discriminate.
    + apply N.log2_lt_pow2; [lia|].
      destruct (N.lt_ge_cases (N.log2 x) (N.of_nat m)) as [L|G]; [exact L|].
      exfalso. specialize (Hb (N.to_nat (N.log2 x))).
      rewrite N2Nat.id, N.bit_log2 in Hb by exact NZ.
      assert (false = true -> False) by discriminate.
      apply H. symmetry. apply Hb. lia.
Qed.

Lemma in_range_same_high m x y :
  (forall i, (m <= i)%nat -> bit x i = bit y i) ->
  in_range m x = in_range m y.
Proof.
  intros E.
  destruct (in_range m x) eqn:Hx, (in_range m y) eqn:Hy; try reflexivity.
  - pose proof (proj1 (in_range_bits m x) Hx) as Bx.
    assert (in_range m y = true) as Hy'
        by (apply in_range_bits; intros i Hi; rewrite <- E by exact Hi; auto).
    congruence.
  - pose proof (proj1 (in_range_bits m y) Hy) as By.
    assert (in_range m x = true) as Hx'
        by (apply in_range_bits; intros i Hi; rewrite E by exact Hi; auto).
    congruence.
Qed.

Lemma in_range_flip m q x : (q < m)%nat -> in_range m (flip q x) = in_range m x.
Proof.
  intros L. apply in_range_same_high. intros i Hi. rewrite bit_flip.
  destruct (Nat.eqb_spec i q); [lia|]. apply xorb_false_r.
Qed.

Lemma in_range_set1 m q x : (q < m)%nat -> in_range m (set1 q x) = in_range m x.
Proof.
  intros L. apply in_range_same_high. intros i Hi. rewrite bit_set1.
  destruct (Nat.eqb_spec i q); [lia|]. reflexivity.
Qed.

Lemma in_range_set0 m q x : (q < m)%nat -> in_range m (set0 q x) = in_range m x.
Proof.
  intros L. apply in_range_same_high. intros i Hi. rewrite bit_set0.
  destruct (Nat.eqb_spec i q); [lia|]. apply andb_true_r.
Qed.

Lemma in_range_swapbits m a b x :
  (a < m)%nat -> (b < m)%nat -> in_range m (swapbits a b x) = in_range m x.
Proof.
  intros La Lb. apply in_range_same_high. intros i Hi. rewrite bit_swapbits.
  destruct (Nat.eqb_spec i a); [lia|]. destruct (Nat.eqb_spec i b); [lia|].
  reflexivity.
Qed.

Lemma in_range_zero m : in_range m 0 = true.
Proof. apply in_range_bits. intros; apply bit_zero. Qed.

End Bits.

(* ================================================================== *)
(** ** The circuit object

    A circuit is the register width together with the ordered list of
    gate calls made on it.  Every notebook measures only at the very end,
    so the measurement is recorded as the number of low qubits copied, in
    order, into the classical register ([measure_all]: all of them). *)
(* ================================================================== *)

Module Circuit.

Inductive gate : Type :=
| H (q : nat)                       (* qc.h(q) *)
| X (q : nat)                       (* qc.x(q) *)
| CX (control target : nat)         (* qc.cx(control, target) *)
| CP (theta : R) (control target : nat)  (* qc.cp(theta, control, target) *)
| SWAP (a b : nat).                 (* qc.swap(a, b) *)

Record QuantumCircuit : Type := mkQC {
  num_qubits : nat;
  data : list gate;
  measured : nat
}.

(** The exceptions raised: the notebook's own [ValueError]; the
    framework's circuit errors for a qubit index outside the register, a
    gate given the same qubit twice, a register of negative size and a gate
    called on an empty list of qubits; and the error of [get_counts] on the
    result of a circuit that measured nothing. *)
Inductive exn : Type :=
| ValueError (msg : string)
| CircuitIndexError (index size : nat)
| CircuitDuplicateError (index : nat)
| CircuitRegisterError (size : Z)
| CircuitEmptyArgumentError
| NoCountsError.

Inductive result (A : Type) : Type :=
| Ok (a : A)
| Raise (e : exn).
Arguments Ok {A} a.
Arguments Raise {A} e.

Definition bind {A B} (r : result A) (k : A -> result B) : result B :=
  match r with
  | Ok a => k a
  | Raise e => Raise e
  end.

Notation "x <- r ;; k" := (bind r (fun x => k))
  (at level 61, r at next level, right associativity).

(** [QuantumCircuit(n)]. *)
Definition new_circuit (n : nat) : QuantumCircuit := mkQC n [] 0.

(** The check the framework makes on the qubit arguments of a call. *)
Definition check_qubit (size q : nat) : result unit :=
  if (q <? size)%nat then Ok tt else Raise (CircuitIndexError q size).

Definition check_gate (size : nat) (g : gate) : result unit :=
  match g with
  | H q | X q => check_qubit size q
  | CX a b | CP _ a b | SWAP a b =>
      _ <- check_qubit size a ;;
      _ <- check_qubit size b ;;
      if (a =? b)%nat then Raise (CircuitDuplicateError a) else Ok tt
  end.

(** One gate call on the circuit object. *)
Definition append (qc : QuantumCircuit) (g : gate) : result QuantumCircuit :=
  _ <- check_gate (num_qubits qc) g ;;
  Ok (mkQC (num_qubits qc) (data qc ++ [g]) (measured qc)).

(** A sequence of gate calls, stopping at the first one that raises. *)
Fixpoint extend (qc : QuantumCircuit) (gs : list gate) : result QuantumCircuit :=
  match gs with
  | [] => Ok qc
  | g :: rest => qc' <- append qc g ;; extend qc' rest
  end.

(** [qc.h(qubits)] on a list of qubits: one Hadamard per qubit, in order;
    the framework refuses an empty list. *)
Definition h_all (qc : QuantumCircuit) (qubits : list nat)
  : result QuantumCircuit :=
  match qubits with
  | [] => Raise CircuitEmptyArgumentError
  | _ :: _ => extend qc (map H qubits)
  end.

(** [qc.measure_all()]. *)
Definition measure_all (qc : QuantumCircuit) : QuantumCircuit :=
  mkQC (num_qubits qc) (data qc) (num_qubits qc).

(** [qc.measure(qreg[:k], creg)] with a [k]-bit classical register. *)
Definition measure_low (k : nat) (qc : QuantumCircuit) : QuantumCircuit :=
  mkQC (num_qubits qc) (data qc) k.

Definition wf_gate (size : nat) (g : gate) : Prop :=
  match g with
  | H q | X q => (q < size)%nat
  | CX a b | CP _ a b | SWAP a b => (a < size)%nat /\ (b < size)%nat /\ a <> b
  end.

Lemma check_gate_wf size g : wf_gate size g -> check_gate size g = Ok tt.
Proof.
  destruct g; simpl; unfold check_qubit.
  - intros L. apply Nat.ltb_lt in L. rewrite L. reflexivity.
  - intros L. apply Nat.ltb_lt in L. rewrite L. reflexivity.
  - intros (La & Lb & NE).
    apply Nat.ltb_lt in La, Lb. apply Nat.eqb_neq in NE.
    rewrite La, Lb. simpl. rewrite NE. reflexivity.
  - intros (La & Lb & NE).
    apply Nat.ltb_lt in La, Lb. apply Nat.eqb_neq in NE.
    rewrite La, Lb. simpl. rewrite NE. reflexivity.
  - intros (La & Lb & NE).
    apply Nat.ltb_lt in La, Lb. apply Nat.eqb_neq in NE.
    rewrite La, Lb. simpl. rewrite NE. reflexivity.
Qed.

Lemma extend_wf gs : forall qc,
  Forall (wf_gate (num_qubits qc)) gs ->
  extend qc gs = Ok (mkQC (num_qubits qc) (data qc ++ gs) (measured qc)).
Proof.
  induction gs as [|g rest IH]; intros qc F.
  - simpl. rewrite app_nil_r. destruct qc; reflexivity.
  - inversion F as [|? ? Wg Wrest]; subst.
    simpl. unfold append. rewrite (check_gate_wf _ _ Wg). simpl.
    rewrite IH by exact Wrest. simpl.
    rewrite <- app_assoc. reflexivity.
Qed.

End Circuit.

(* ================================================================== *)
(** ** State-vector semantics of the gates *)
(* ================================================================== *)

Module Sem.
Import Amp Bits Circuit.

(** A state assigns an amplitude to every basis index. *)
Definition state : Type := N -> C.

Definition state_eq (s t : state) : Prop := forall x, s x = t x.
Infix "==" := state_eq (at level 70, no associativity).

(** The computational-basis state |k>. *)
Definition basis (k : N) : state :=
  fun x => if (x =? k)%N then one else zero.

Definition apply (g : gate) (s : state) : state :=
  match g with
  | H q => fun x =>
      scale (/ sqrt 2)
            (add (s (set0 q x))
                 (if bit x q then neg (s (set1 q x)) else s (set1 q x)))
  | X q => fun x => s (flip q x)
  | CX c t => fun x => s (if bit x c then flip t x else x)
  | CP theta c t => fun x =>
      if bit x c && bit x t then mul (expi theta) (s x) else s x
  | SWAP a b => fun x => s (swapbits a b x)
  end.

Fixpoint run (gs : list gate) (s : state) : state :=
  match gs with
  | [] => s
  | g :: rest => run rest (apply g s)
  end.

(** Gates that permute the basis states, and the permutation they apply. *)
Definition classical (g : gate) : bool :=
  match g with
  | X _ | CX _ _ | SWAP _ _ => true
  | H _ | CP _ _ _ => false
  end.

Definition cstep (g : gate) (x : N) : N :=
  match g with
  | X q => flip q x
  | CX c t => if bit x c then flip t x else x
  | SWAP a b => swapbits a b x
  | H _ | CP _ _ _ => x
  end.

Definition crun (gs : list gate) (x : N) : N :=
  fold_left (fun y g => cstep g y) gs x.

(** Sum of a list of reals. *)
Definition rsum (l : list R) : R := fold_right Rplus 0 l.

(** Probability that the [k] measured low qubits of an [m]-qubit register
    read the value [v]: the weight of every basis index whose low [k] bits
    are [v]. *)
Definition marginal (m k : nat) (s : state) (v : N) : R :=
  rsum (map (fun h => norm2 (s (v + N.of_nat h * 2 ^ N.of_nat k)%N))
            (seq 0 (2 ^ (m - k)))).

(** The state a circuit leaves, started as the simulator starts it, in
    |0...0>. *)
Definition final_state (qc : QuantumCircuit) : state :=
  run (data qc) (basis 0).

Lemma state_eq_refl s : s == s.
Proof. intros x; reflexivity. Qed.

Lemma state_eq_sym s t : s == t -> t == s.
Proof. intros E x; symmetry; apply E. Qed.

Lemma state_eq_trans s t u : s == t -> t == u -> s == u.
Proof. intros E1 E2 x; rewrite E1; apply E2. Qed.

Lemma apply_ext g s t : s == t -> apply g s == apply g t.
Proof.
  intros E x. destruct g; simpl; rewrite ?E; reflexivity.
Qed.

Lemma run_ext gs : forall s t, s == t -> run gs s == run gs t.
Proof.
  induction gs as [|g rest IH]; intros s t E; simpl.
  - exact E.
  - apply IH, apply_ext, E.
Qed.

Lemma run_app gs1 gs2 s : run (gs1 ++ gs2) s = run gs2 (run gs1 s).
Proof.
  revert s. induction gs1 as [|g rest IH]; intros s; simpl.
  - reflexivity.
  - apply IH.
Qed.

Lemma crun_app gs1 gs2 x : crun (gs1 ++ gs2) x = crun gs2 (crun gs1 x).
Proof. unfold crun. apply fold_left_app. Qed.

Lemma cstep_involutive size g x :
  wf_gate size g -> cstep g (cstep g x) = x.
Proof.
  destruct g; simpl; intros W; try reflexivity.
  - apply flip_flip.
  - destruct W as (_ & _ & NE).
    destruct (bit x control) eqn:B.
    + rewrite bit_flip, B.
      destruct (Nat.eqb_spec control target); [contradiction|].
      simpl. apply flip_flip.
    + rewrite B. reflexivity.
  - apply swapbits_involutive.
Qed.

Lemma basis_perm (f : N -> N) k :
  (forall x, f (f x) = x) -> (fun x => basis k (f x)) == basis (f k).
Proof.
  intros Inv x. unfold basis.
  destruct (N.eqb_spec (f x) k) as [E|NE]; destruct (N.eqb_spec x (f k)) as [E'|NE'];
    try reflexivity.
  - exfalso. apply NE'. rewrite <- E. symmetry. apply Inv.
  - exfalso. apply NE. rewrite E'. apply Inv.
Qed.

(** A classical gate sends a basis state to the basis state of its
    permutation. *)
Lemma apply_basis size g k :
  classical g = true -> wf_gate size g ->
  apply g (basis k) == basis (cstep g k).
Proof.
  intros Cl W.
  pose proof (fun x => cstep_involutive size g x W) as Inv.
  destruct g; simpl in *; try discriminate.
  - apply (basis_perm (flip q)). exact Inv.
  - apply (basis_perm (fun x => if bit x control then flip target x else x)).
    exact Inv.
  - apply (basis_perm (swapbits a b)). exact Inv.
Qed.

Lemma run_basis size gs : forall k,
  forallb classical gs = true -> Forall (wf_gate size) gs ->
  run gs (basis k) == basis (crun gs k).
Proof.
  induction gs as [|g rest IH]; intros k Cl W; simpl.
  - apply state_eq_refl.
  - simpl in Cl. apply andb_true_iff in Cl as [Cg Cr].
    inversion W as [|? ? Wg Wr]; subst.
    eapply state_eq_trans.
    + apply run_ext. apply (apply_basis size); assumption.
    + apply IH; assumption.
Qed.

End Sem.

(* ================================================================== *)
(** ** Python strings and loops, and the simulator's counts *)
(* ================================================================== *)

Module Py.
Import Amp Bits Circuit Sem.

Local Open Scope string_scope.

Definition chars (s : string) : list ascii := list_ascii_of_string s.

(** [bit == '1']. *)
Definition is_one (c : ascii) : bool := Ascii.eqb c "1"%char.

Definition is_bit (c : ascii) : bool :=
  Ascii.eqb c "0"%char || Ascii.eqb c "1"%char.

(** The string is made of the characters 0 and 1 only. *)
Definition bitstring (s : string) : bool := forallb is_bit (chars s).

(** [enumerate(l)], counting from [start]. *)
Fixpoint enumerate_from {A} (start : nat) (l : list A) : list (nat * A) :=
  match l with
  | [] => []
  | a :: rest => (start, a) :: enumerate_from (S start) rest
  end.

Definition enumerate {A} (l : list A) : list (nat * A) := enumerate_from 0 l.

(** [range(a, b)] and [range(b - 1, a - 1, -1)]. *)
Definition range (a b : nat) : list nat := seq a (b - a).
Definition range_down (a b : nat) : list nat := rev (range a b).

(** [int(s, 2)]: the value of a bit string, most significant bit first;
    this is also how a key of the counts dictionary names the measured
    value (classical bit 0 is the rightmost character). *)
Definition int_of_bits (s : string) : N :=
  fold_left (fun acc c => (2 * acc + (if is_one c then 1 else 0))%N) (chars s) 0%N.

(** The key under which the counts dictionary reports the value [v] of a
    [k]-bit classical register. *)
Definition key_of (k : nat) (v : N) : string :=
  string_of_list_ascii
    (map (fun j => if bit v (k - 1 - j) then "1"%char else "0"%char) (seq 0 k)).

(** Probability with which one shot of the circuit reports [key]. *)
Definition outcome_prob (qc : QuantumCircuit) (key : string) : R :=
  if ((String.length key =? measured qc)%nat && bitstring key)%bool
  then marginal (num_qubits qc) (measured qc) (final_state qc) (int_of_bits key)
  else 0%R.

(** Decidable well-formedness of a gate list, and the check that a
    fully measured circuit of classical gates reports [key]. *)
Definition wf_gateb (size : nat) (g : gate) : bool :=
  match check_gate size g with
  | Ok _ => true
  | Raise _ => false
  end.

Definition reports (qc : QuantumCircuit) (key : string) : bool :=
  ((measured qc =? num_qubits qc)%nat
   && forallb classical (data qc)
   && forallb (wf_gateb (num_qubits qc)) (data qc)
   && (String.length key =? measured qc)%nat
   && bitstring key
   && (int_of_bits key =? crun (data qc) 0)%N)%bool.

(** The key a circuit of classical gates reports. *)
Definition read_key (qc : QuantumCircuit) : string :=
  key_of (measured qc) (crun (data qc) 0).

Lemma length_chars s : List.length (chars s) = String.length s.
Proof. induction s as [|c s IH]; simpl; [reflexivity | f_equal; exact IH]. Qed.

Lemma enumerate_from_bound {A} (l : list A) : forall start i a,
  In (i, a) (enumerate_from start l) -> (i < start + List.length l)%nat.
Proof.
  induction l as [|x rest IH]; simpl; intros start i a Hin.
  - contradiction.
  - destruct Hin as [E|Hin].
    + inversion E; subst. lia.
    + apply IH in Hin. lia.
Qed.

Lemma wf_gateb_wf size g : wf_gateb size g = true -> wf_gate size g.
Proof.
  unfold wf_gateb.
  destruct g; simpl; unfold check_qubit.
  - destruct (Nat.ltb_spec q size); [auto|discriminate].
  - destruct (Nat.ltb_spec q size); [auto|discriminate].
  - destruct (Nat.ltb_spec control size); simpl; [|discriminate].
    destruct (Nat.ltb_spec target size); simpl; [|discriminate].
    destruct (Nat.eqb_spec control target); [discriminate|auto].
  - destruct (Nat.ltb_spec control size); simpl; [|discriminate].
    destruct (Nat.ltb_spec target size); simpl; [|discriminate].
    destruct (Nat.eqb_spec control target); [discriminate|auto].
  - destruct (Nat.ltb_spec a size); simpl; [|discriminate].
    destruct (Nat.ltb_spec b size); simpl; [|discriminate].
    destruct (Nat.eqb_spec a b); [discriminate|auto].
Qed.

Lemma forallb_wf size gs :
  forallb (wf_gateb size) gs = true -> Forall (wf_gate size) gs.
Proof.
  intros F. apply Forall_forall. intros g Hg.
  apply wf_gateb_wf. rewrite forallb_forall in F. apply F, Hg.
Qed.

(** When every qubit is measured, the marginal is the weight of the one
    basis index. *)
Lemma marginal_all m s v : marginal m m s v = norm2 (s v).
Proof.
  unfold marginal. rewrite Nat.sub_diag. simpl.
  rewrite N.add_0_r. unfold rsum. simpl. ring.
Qed.

Lemma reports_sound qc key : reports qc key = true -> outcome_prob qc key = 1%R.
Proof.
  unfold reports, outcome_prob. intros Hr.
  repeat (apply andb_true_iff in Hr as [Hr ?]).
  apply Nat.eqb_eq in Hr.
  match goal with E : (int_of_bits _ =? _)%N = true |- _ => apply N.eqb_eq in E; rename E into Ev end.
  match goal with E : (String.length _ =? _)%nat = true |- _ => rewrite E end.
  match goal with E : bitstring _ = true |- _ => rewrite E end.
  simpl. rewrite Hr, marginal_all.
  unfold final_state.
  rewrite (run_basis (num_qubits qc)); [|assumption|apply forallb_wf; assumption].
  unfold basis. rewrite Ev, N.eqb_refl. apply norm2_one.
Qed.

End Py.

(* ================================================================== *)
(** ** Binary Shift.ipynb *)
(* ================================================================== *)

Module BinaryShift.
Import Amp Bits Circuit Sem Py.

Local Open Scope string_scope.

(** The X calls of the initialisation loop
    [for i, bit in enumerate(reversed(input_bits)): if bit == '1': qc.x(i)]. *)
Definition init_gates (input_bits : string) : list gate :=
  flat_map (fun '(i, bit) => if is_one bit then [X i] else [])
           (enumerate (rev (chars input_bits))).

(** [create_shift_circuit], up to the measured circuit handed to the
    simulator; the counts it returns are described by [outcome_prob]. *)
Definition create_shift_circuit (input_bits direction : string)
  : result QuantumCircuit :=
  qc <- extend (new_circuit 4) (init_gates input_bits) ;;
  qc <- (if String.eqb direction "right" then
           extend qc [SWAP 0 1; SWAP 1 2; SWAP 2 3]
         else if String.eqb direction "left" then
           extend qc [SWAP 2 3; SWAP 1 2; SWAP 0 1]
         else Raise (ValueError "Direction must be 'right' or 'left'.")) ;;
  Ok (measure_all qc).

Definition opposite (direction : string) : string :=
  if String.eqb direction "right" then "left" else "right".

(** Every 1 of the string lies among its last [k] characters, so that the
    initialisation loop only touches qubits below [k]. *)
Definition ones_within (k : nat) (s : string) : bool :=
  forallb (fun '(i, c) => negb (is_one c) || (i <? k)%nat)
          (enumerate (rev (chars s))).

(** One rotation followed by the opposite one, read back through the
    reported keys. *)
Definition roundtrip_ok (b d : string) : bool :=
  match create_shift_circuit b d with
  | Ok qc1 =>
      let r := read_key qc1 in
      reports qc1 r &&
      match create_shift_circuit r (opposite d) with
      | Ok qc2 => reports qc2 b
      | Raise _ => false
      end
  | Raise _ => false
  end.

Definition four_bit_strings : list string :=
  [ "0000"; "0001"; "0010"; "0011"; "0100"; "0101"; "0110"; "0111";
    "1000"; "1001"; "1010"; "1011"; "1100"; "1101"; "1110"; "1111" ].

Lemma is_bit_cases c : is_bit c = true -> c = "0"%char \/ c = "1"%char.
Proof.
  unfold is_bit. intros E. apply orb_true_iff in E as [E|E];
    apply Ascii.eqb_eq in E; auto.
Qed.

Lemma four_bit_strings_complete b :
  String.length b = 4%nat -> bitstring b = true -> In b four_bit_strings.
Proof.
  intros L B.
  destruct b as [|c0 [|c1 [|c2 [|c3 [|c4 rest]]]]]; simpl in L; try discriminate.
  unfold bitstring in B. simpl in B.
  repeat (apply andb_true_iff in B as [?E B]).
  apply is_bit_cases in E, E0, E1, E2.
  destruct E as [-> | ->], E0 as [-> | ->], E1 as [-> | ->], E2 as [-> | ->];
    simpl; tauto.
Qed.

Lemma roundtrip_ok_all :
  forallb (fun b => roundtrip_ok b "right" && roundtrip_ok b "left")
          four_bit_strings = true.
Proof. vm_compute. reflexivity. Qed.

Lemma init_gates_wf k s :
  ones_within k s = true -> Forall (wf_gate k) (init_gates s).
Proof.
  unfold ones_within, init_gates.
  generalize (enumerate (rev (chars s))) as l.
  induction l as [|[i c] rest IH]; simpl; intros F.
  - constructor.
  - apply andb_true_iff in F as [Hc Hr].
    destruct (is_one c); simpl in *.
    + constructor; [apply Nat.ltb_lt; exact Hc | apply IH; exact Hr].
    + apply IH; exact Hr.
Qed.

(** Strings of at most [k] characters qualify. *)
Lemma ones_within_short k s :
  (String.length s <= k)%nat -> ones_within k s = true.
Proof.
  intros L. unfold ones_within. apply forallb_forall. intros [i c] Hin.
  apply enumerate_from_bound in Hin.
  rewrite length_rev, length_chars in Hin.
  assert (i < k)%nat as Lt by lia. apply Nat.ltb_lt in Lt. rewrite Lt.
  apply orb_true_r.
Qed.

(** C6: on the notebook's input 1011 the right shift makes the swaps
    (0,1),(1,2),(2,3) and reports the key 1101 with probability 1; the
    left shift makes the swaps (2,3),(1,2),(0,1) and reports 0111 with
    probability 1. *)
Theorem shift_1011_outputs :
  (exists qc,
      create_shift_circuit "1011" "right" = Ok qc /\
      data qc = [X 0; X 1; X 3; SWAP 0 1; SWAP 1 2; SWAP 2 3] /\
      outcome_prob qc "1101" = 1%R) /\
  (exists qc,
      create_shift_circuit "1011" "left" = Ok qc /\
      data qc = [X 0; X 1; X 3; SWAP 2 3; SWAP 1 2; SWAP 0 1] /\
      outcome_prob qc "0111" = 1%R).
Proof.
  split; eexists; (split; [reflexivity|]); (split; [reflexivity|]);
    apply reports_sound; vm_compute; reflexivity.
Qed.

(** C5: for every 4-bit string [b] and either direction [d], the shift
    circuit for [b] and [d] reports some key [r] with probability 1, and
    the shift circuit for [r] and the opposite direction reports [b] with
    probability 1. *)
Theorem shift_then_opposite_restores (b d : string) :
  String.length b = 4%nat ->
  bitstring b = true ->
  d = "right" \/ d = "left" ->
  exists qc1 r qc2,
    create_shift_circuit b d = Ok qc1 /\
    outcome_prob qc1 r = 1%R /\
    create_shift_circuit r (opposite d) = Ok qc2 /\
    outcome_prob qc2 b = 1%R.
Proof.
  intros L B D.
  pose proof (four_bit_strings_complete b L B) as Hin.
  pose proof roundtrip_ok_all as All.
  rewrite forallb_forall in All. specialize (All b Hin).
  apply andb_true_iff in All as [Rr Rl].
  assert (roundtrip_ok b d = true) as Rt by (destruct D; subst d; assumption).
  clear Rr Rl. unfold roundtrip_ok in Rt.
  destruct (create_shift_circuit b d) as [qc1|] eqn:E1; [|discriminate].
  apply andb_true_iff in Rt as [R1 Rt].
  destruct (create_shift_circuit (read_key qc1) (opposite d)) as [qc2|] eqn:E2;
    [|discriminate].
  exists qc1, (read_key qc1), qc2.
  repeat split; auto using reports_sound.
Qed.

Lemma shift_then_opposite_restores_witness :
  exists qc1 r qc2,
    create_shift_circuit "1011" "right" = Ok qc1 /\
    outcome_prob qc1 r = 1%R /\
    create_shift_circuit r (opposite "right") = Ok qc2 /\
    outcome_prob qc2 "1011" = 1%R.
Proof.
  apply (shift_then_opposite_restores "1011" "right");
    [reflexivity | reflexivity | left; reflexivity].
Defined.

(** C7, as the code has it: the five-character input 10000 makes the
    initialisation loop call [qc.x(4)] on the 4-qubit circuit, which raises
    the framework's index error before the direction is looked at; no
    [ValueError] is raised for the invalid direction, and a valid direction
    raises too. *)
Lemma shift_long_input_index_error :
  create_shift_circuit "10000" "up" = Raise (CircuitIndexError 4 4) /\
  (forall msg, create_shift_circuit "10000" "up" <> Raise (ValueError msg)) /\
  create_shift_circuit "10000" "right" = Raise (CircuitIndexError 4 4).
Proof.
  split; [reflexivity|]. split; [|reflexivity].
  intros msg. vm_compute. discriminate.
Qed.

(** C7, amended: for every input string whose 1s all lie among its last
    four characters, a direction other than right and left raises
    [ValueError] with the descriptive message, and the directions right
    and left raise nothing. *)
Theorem shift_direction_check (input_bits direction : string) :
  ones_within 4 input_bits = true ->
  (direction <> "right" -> direction <> "left" ->
   create_shift_circuit input_bits direction
   = Raise (ValueError "Direction must be 'right' or 'left'.")) /\
  (direction = "right" \/ direction = "left" ->
   exists qc, create_shift_circuit input_bits direction = Ok qc).
Proof.
  intros Fit.
  pose proof (init_gates_wf 4 input_bits Fit) as W.
  unfold create_shift_circuit.
  rewrite (extend_wf (init_gates input_bits) (new_circuit 4)) by exact W.
  simpl. split.
  - intros NR NL.
    apply String.eqb_neq in NR, NL. rewrite NR, NL. reflexivity.
  - intros [-> | ->]; simpl; eexists; reflexivity.
Qed.

Lemma shift_direction_check_witness :
  create_shift_circuit "1011" "up"
  = Raise (ValueError "Direction must be 'right' or 'left'.") /\
  exists qc, create_shift_circuit "1011" "left" = Ok qc.
Proof.
  split.
  - apply (proj1 (shift_direction_check "1011" "up" eq_refl)); discriminate.
  - apply (proj2 (shift_direction_check "1011" "left" eq_refl)).
    right; reflexivity.
Defined.

End BinaryShift.

(* ================================================================== *)
(** ** BB84.ipynb *)
(* ================================================================== *)

Module BB84.
Import Amp Bits Circuit Sem Py.

Local Open Scope string_scope.

(** The body of the loop of [encode_qubits]: a fresh [QuantumCircuit(1, 1)]
    with H when the basis is X, then X when the bit is 1, then H again when
    the basis is X. *)
Definition encode_qubit (bit : Z) (basis : string) : QuantumCircuit :=
  let g1 := if String.eqb basis "X" then [H 0] else [] in
  let g2 := if (bit =? 1)%Z then [X 0] else [] in
  let g3 := if String.eqb basis "X" then [H 0] else [] in
  mkQC 1 (g1 ++ g2 ++ g3) 0.

Definition encode_qubits (bits : list Z) (bases : list string)
  : list QuantumCircuit :=
  map (fun '(bit, basis) => encode_qubit bit basis) (combine bits bases).

(** The body of the loop of [measure_qubits] up to the simulator call:
    H when the basis is X, then [measure(0, 0)]. *)
Definition measured_circuit (qc : QuantumCircuit) (basis : string)
  : QuantumCircuit :=
  let g := if String.eqb basis "X" then [H 0] else [] in
  measure_low 1 (mkQC (num_qubits qc) (data qc ++ g) (measured qc)).

(** [measure_qubits], up to the circuits handed to the simulator, in
    order; the entry appended for each is [int(key)] of the key the
    simulator reports for it. *)
Definition measure_qubits (qubits : list QuantumCircuit) (bases : list string)
  : list QuantumCircuit :=
  map (fun '(qc, basis) => measured_circuit qc basis) (combine qubits bases).

(** Probability that the entry appended for the measured circuit [mc],
    [int(key)] of the reported one-character key, is [m]. *)
Definition measurement_prob (mc : QuantumCircuit) (m : Z) : R :=
  if (m =? 0)%Z then outcome_prob mc "0"
  else if (m =? 1)%Z then outcome_prob mc "1"
  else 0%R.

(** [zip] of the four sequences, in the order the loop of [sift_key]
    names them; it stops with the shortest. *)
Definition zip4 {A B C D} (la : list A) (lb : list B) (lc : list C) (ld : list D)
  : list (A * B * C * D) :=
  combine (combine (combine la lb) lc) ld.

Definition sift_key (alice_bits bob_bits : list Z)
           (alice_bases bob_bases : list string) : list Z :=
  map (fun '(a_base, b_base, a_bit, b_bit) =>
         if String.eqb a_base b_base then 0%Z else 1%Z)
      (zip4 alice_bases bob_bases alice_bits bob_bits).

(** The gate calls of [encode_qubit] pass the framework's checks. *)
Lemma encode_qubit_checked bit basis :
  extend (mkQC 1 [] 0) (data (encode_qubit bit basis))
  = Ok (encode_qubit bit basis).
Proof.
  unfold encode_qubit.
  destruct (String.eqb basis "X"), (bit =? 1)%Z; reflexivity.
Qed.

Lemma sift_key_length : forall alice_bases bob_bases alice_bits bob_bits,
  List.length bob_bases = List.length alice_bases ->
  List.length alice_bits = List.length alice_bases ->
  List.length bob_bits = List.length alice_bases ->
  List.length (sift_key alice_bits bob_bits alice_bases bob_bases)
  = List.length alice_bases.
Proof.
  intros la lb lc ld E1 E2 E3. unfold sift_key, zip4.
  rewrite length_map, !length_combine. lia.
Qed.

Lemma sift_key_nth : forall alice_bases bob_bases alice_bits bob_bits i a b,
  List.length bob_bases = List.length alice_bases ->
  List.length alice_bits = List.length alice_bases ->
  List.length bob_bits = List.length alice_bases ->
  nth_error alice_bases i = Some a ->
  nth_error bob_bases i = Some b ->
  nth_error (sift_key alice_bits bob_bits alice_bases bob_bases) i
  = Some (if String.eqb a b then 0%Z else 1%Z).
Proof.
  induction alice_bases as [|a0 la IH];
    intros [|b0 lb] [|c0 lc] [|d0 ld] i a b E1 E2 E3 Ha Hb;
    simpl in *; try discriminate; try (destruct i; discriminate).
  destruct i as [|i]; simpl in *.
  - inversion Ha; inversion Hb; subst. reflexivity.
  - apply (IH lb lc ld i a b); auto.
Qed.

(** C8: on four sequences of one common length, [sift_key] returns a
    sequence of that length whose elements are all 0 or 1, with 0 at
    exactly the positions where the two basis sequences agree and 1 at
    exactly those where they differ. *)
Theorem sift_key_flags (alice_bits bob_bits : list Z)
        (alice_bases bob_bases : list string) :
  List.length bob_bases = List.length alice_bases ->
  List.length alice_bits = List.length alice_bases ->
  List.length bob_bits = List.length alice_bases ->
  let out := sift_key alice_bits bob_bits alice_bases bob_bases in
  List.length out = List.length alice_bases /\
  Forall (fun v => v = 0%Z \/ v = 1%Z) out /\
  forall i a b,
    nth_error alice_bases i = Some a ->
    nth_error bob_bases i = Some b ->
    exists v, nth_error out i = Some v /\
              (v = 0%Z <-> a = b) /\ (v = 1%Z <-> a <> b).
Proof.
  intros E1 E2 E3 out. subst out. split; [|split].
  - apply sift_key_length; assumption.
  - unfold sift_key. apply Forall_forall. intros v Hin.
    apply in_map_iff in Hin as ([[[a b] c] d] & Hv & _).
    destruct (String.eqb a b); auto.
  - intros i a b Ha Hb.
    rewrite (sift_key_nth _ _ _ _ i a b E1 E2 E3 Ha Hb).
    eexists; split; [reflexivity|].
    destruct (String.eqb_spec a b) as [Eab|Nab]; split; split; intros;
      try reflexivity; try assumption; try discriminate; try contradiction.
Qed.

Lemma sift_key_flags_witness :
  let out := sift_key [0; 1; 1]%Z [0; 0; 1]%Z ["X"; "Z"; "Z"] ["X"; "X"; "Z"] in
  List.length out = 3%nat /\
  Forall (fun v => v = 0%Z \/ v = 1%Z) out /\
  forall i a b,
    nth_error ["X"; "Z"; "Z"] i = Some a ->
    nth_error ["X"; "X"; "Z"] i = Some b ->
    exists v, nth_error out i = Some v /\
              (v = 0%Z <-> a = b) /\ (v = 1%Z <-> a <> b).
Proof.
  apply (sift_key_flags [0; 1; 1]%Z [0; 0; 1]%Z ["X"; "Z"; "Z"] ["X"; "X"; "Z"]);
    reflexivity.
Defined.

(** C9: for a bit [b] of 0 or 1 encoded in the Z basis, the circuit
    of [encode_qubits] holds an X gate exactly when [b] is 1;
    [measure_qubits] in the Z basis adds no gate to it and measures the
    qubit, and the value it returns is [b] with probability 1. *)
Theorem z_basis_round_trip (b : Z) :
  b = 0%Z \/ b = 1%Z ->
  exists qc mc,
    encode_qubits [b] ["Z"] = [qc] /\
    data qc = (if (b =? 1)%Z then [X 0] else []) /\
    measure_qubits [qc] ["Z"] = [mc] /\
    data mc = data qc /\
    measured mc = 1%nat /\
    measurement_prob mc b = 1%R.
Proof.
  intros [-> | ->]; eexists; eexists;
    (split; [reflexivity|]); (split; [reflexivity|]);
    (split; [reflexivity|]); (split; [reflexivity|]);
    (split; [reflexivity|]);
    unfold measurement_prob; simpl;
    apply reports_sound; vm_compute; reflexivity.
Qed.

Lemma z_basis_round_trip_witness :
  exists qc mc,
    encode_qubits [1%Z] ["Z"] = [qc] /\
    data qc = [X 0] /\
    measure_qubits [qc] ["Z"] = [mc] /\
    data mc = data qc /\
    measured mc = 1%nat /\
    measurement_prob mc 1 = 1%R.
Proof.
  apply (z_basis_round_trip 1). right; reflexivity.
Defined.

End BB84.

(* ================================================================== *)
(** ** QKNN.ipynb: the distance estimate *)
(* ================================================================== *)

Module QKNN.

(** Python's [max(a, b)]: the second argument only when it is larger. *)
Definition py_max (a b : R) : R := if Rlt_dec a b then b else a.

(** The last three statements of [estimate_distance], on the probability
    [prob_0] of the outcome 0. *)
Definition distance_of_prob (prob_0 : R) : R :=
  let distance_squared := 2 * (1 - prob_0) in
  sqrt (py_max 0 distance_squared).

(** [estimate_distance], from the number of shots and the count the
    simulator reports under the key 0 ([counts.get('0', 0)]). *)
Definition estimate_distance (count_0 shots : nat) : R :=
  let prob_0 := INR count_0 / INR shots in
  distance_of_prob prob_0.

Lemma py_max_Rmax a b : py_max a b = Rmax a b.
Proof.
  unfold py_max, Rmax.
  destruct (Rlt_dec a b), (Rle_dec a b); try reflexivity; lra.
Qed.

(** C4: the estimate is sqrt(max(0, 2(1-p))) of the probability p of
    the reference outcome; it is 0 at p = 1, sqrt 2 at p = 0, and does not
    increase as p grows within [0,1]. *)
Theorem distance_estimate_contract :
  (forall count_0 shots,
      estimate_distance count_0 shots
      = distance_of_prob (INR count_0 / INR shots)) /\
  (forall p, distance_of_prob p = sqrt (Rmax 0 (2 * (1 - p)))) /\
  distance_of_prob 1 = 0 /\
  distance_of_prob 0 = sqrt 2 /\
  (forall p q, 0 <= p -> p <= q -> q <= 1 ->
               distance_of_prob q <= distance_of_prob p).
Proof.
  split; [reflexivity|]. split; [|split; [|split]].
  - intros p. unfold distance_of_prob. rewrite py_max_Rmax. reflexivity.
  - unfold distance_of_prob, py_max.
    destruct (Rlt_dec 0 (2 * (1 - 1))); [lra|]. apply sqrt_0.
  - unfold distance_of_prob, py_max.
    destruct (Rlt_dec 0 (2 * (1 - 0))); [|lra]. f_equal. ring.
  - intros p q Hp Hpq Hq. unfold distance_of_prob.
    rewrite !py_max_Rmax. apply sqrt_le_1_alt.
    apply Rle_max_compat_l. lra.
Qed.

Lemma distance_estimate_contract_witness :
  distance_of_prob 1 <= distance_of_prob (/ 2).
Proof.
  apply (proj2 (proj2 (proj2 (proj2 distance_estimate_contract))) (/ 2) 1); lra.
Defined.

End QKNN.

(* ================================================================== *)
(** ** Product states

    A register whose qubits are not entangled is described qubit by
    qubit; single-qubit gates then act on one entry of the description,
    and a CNOT whose target is in the state |0> - |1> acts as a phase flip
    of its control (phase kickback). *)
(* ================================================================== *)

Module Product.
Import Amp Bits Circuit Sem.

(** The amplitudes of |0> and |1> of one qubit. *)
Definition qubit : Type := (C * C)%type.

Definition ket0 : qubit := (one, zero).
Definition ket1 : qubit := (zero, one).
Definition ket_plus : qubit := (scale (/ sqrt 2) one, scale (/ sqrt 2) one).
Definition ket_minus : qubit := (scale (/ sqrt 2) one, neg (scale (/ sqrt 2) one)).

Definition hq (v : qubit) : qubit :=
  (scale (/ sqrt 2) (add (fst v) (snd v)),
   scale (/ sqrt 2) (add (fst v) (neg (snd v)))).
Definition xq (v : qubit) : qubit := (snd v, fst v).
Definition zq (v : qubit) : qubit := (fst v, neg (snd v)).

Definition upd (f : nat -> qubit) (q : nat) (v : qubit) : nat -> qubit :=
  fun i => if (i =? q)%nat then v else f i.

(** Amplitude that qubit [i] contributes to the basis index [x]. *)
Definition amp (f : nat -> qubit) (x : N) (i : nat) : C :=
  if bit x i then snd (f i) else fst (f i).

Fixpoint bigprod (m : nat) (F : nat -> C) : C :=
  match m with
  | O => one
  | S k => mul (bigprod k F) (F k)
  end.

Definition prod_state (m : nat) (f : nat -> qubit) : state :=
  fun x => if in_range m x then bigprod m (amp f x) else zero.

Lemma bigprod_ext m F G :
  (forall i, (i < m)%nat -> F i = G i) -> bigprod m F = bigprod m G.
Proof.
  induction m as [|m IH]; intros E; simpl.
  - reflexivity.
  - rewrite IH by (intros; apply E; lia). rewrite E by lia. reflexivity.
Qed.

Lemma bigprod_one m F :
  (forall i, (i < m)%nat -> F i = one) -> bigprod m F = one.
Proof.
  induction m as [|m IH]; intros E; simpl.
  - reflexivity.
  - rewrite IH by (intros; apply E; lia). rewrite E by lia. apply mul_one_l.
Qed.

(** One factor taken out of the product, the others read from [G]. *)
Lemma bigprod_split q m F G :
  (q < m)%nat ->
  (forall i, (i < m)%nat -> i <> q -> F i = G i) ->
  bigprod m F = mul (F q) (bigprod m (fun i => if (i =? q)%nat then one else G i)).
Proof.
  induction m as [|m IH]; intros L E; [lia|]. simpl.
  destruct (Nat.eq_dec q m) as [->|NE].
  - rewrite Nat.eqb_refl, mul_one_r.
    rewrite (bigprod_ext m F (fun i => if (i =? m)%nat then one else G i)).
    + apply mul_comm.
    + intros i Hi. destruct (Nat.eqb_spec i m); [lia|]. apply E; lia.
  - rewrite IH by (try lia; intros; apply E; lia).
    destruct (Nat.eqb_spec m q); [congruence|].
    rewrite <- E by lia. rewrite <- mul_assoc. reflexivity.
Qed.

Lemma bigprod_zero q m F : (q < m)%nat -> F q = zero -> bigprod m F = zero.
Proof.
  intros L Z. rewrite (bigprod_split q m F F L) by reflexivity.
  rewrite Z. apply mul_zero_l.
Qed.

Lemma prod_state_ext m f g :
  (forall i, (i < m)%nat -> f i = g i) -> prod_state m f == prod_state m g.
Proof.
  intros E x. unfold prod_state. destruct (in_range m x); [|reflexivity].
  apply bigprod_ext. intros i Hi. unfold amp. rewrite E by exact Hi. reflexivity.
Qed.

Lemma nonzero_has_bit m x :
  in_range m x = true -> x <> 0%N -> exists i, (i < m)%nat /\ bit x i = true.
Proof.
  intros Hr NZ. exists (N.to_nat (N.log2 x)). split.
  - unfold in_range in Hr. apply N.ltb_lt in Hr.
    apply N.log2_lt_pow2 in Hr; lia.
  - unfold bit. rewrite N2Nat.id. apply N.bit_log2. exact NZ.
Qed.

(** The simulator's initial state is the product of |0>s. *)
Lemma basis_zero_product m : basis 0 == prod_state m (fun _ => ket0).
Proof.
  intros x. unfold basis, prod_state.
  destruct (N.eqb_spec x 0) as [->|NZ].
  - rewrite in_range_zero. symmetry. apply bigprod_one.
    intros i _. unfold amp. rewrite bit_zero. reflexivity.
  - destruct (in_range m x) eqn:Hr; [|reflexivity].
    destruct (nonzero_has_bit m x Hr NZ) as (i & Li & Bi).
    symmetry. apply (bigprod_zero i); [exact Li|].
    unfold amp. rewrite Bi. reflexivity.
Qed.

(** The product over [f] at an index that agrees with [x] off qubit [q]. *)
Lemma product_at q m f g x y :
  (q < m)%nat ->
  (forall i, i <> q -> bit y i = bit x i) ->
  (forall i, i <> q -> g i = f i) ->
  bigprod m (amp g y)
  = mul (amp g y q) (bigprod m (fun i => if (i =? q)%nat then one else amp f x i)).
Proof.
  intros L Eb Eg. apply bigprod_split; [exact L|].
  intros i _ Hi. unfold amp. rewrite Eb, Eg by exact Hi. reflexivity.
Qed.

Lemma upd_same f q v : upd f q v q = v.
Proof. unfold upd. rewrite Nat.eqb_refl. reflexivity. Qed.

Lemma upd_other f q v i : i <> q -> upd f q v i = f i.
Proof. unfold upd. intros NE. destruct (Nat.eqb_spec i q); [contradiction|reflexivity]. Qed.

Lemma bit_set0_other q x i : i <> q -> bit (set0 q x) i = bit x i.
Proof.
  intros NE. rewrite bit_set0. destruct (Nat.eqb_spec i q); [contradiction|].
  apply andb_true_r.
Qed.

Lemma bit_set1_other q x i : i <> q -> bit (set1 q x) i = bit x i.
Proof.
  intros NE. rewrite bit_set1. destruct (Nat.eqb_spec i q); [contradiction|].
  reflexivity.
Qed.

Lemma bit_flip_other q x i : i <> q -> bit (flip q x) i = bit x i.
Proof.
  intros NE. rewrite bit_flip. destruct (Nat.eqb_spec i q); [contradiction|].
  apply xorb_false_r.
Qed.

Lemma bit_set0_same q x : bit (set0 q x) q = false.
Proof. rewrite bit_set0, Nat.eqb_refl. apply andb_false_r. Qed.

Lemma bit_set1_same q x : bit (set1 q x) q = true.
Proof. rewrite bit_set1, Nat.eqb_refl. reflexivity. Qed.

Lemma bit_flip_same q x : bit (flip q x) q = negb (bit x q).
Proof. rewrite bit_flip, Nat.eqb_refl. destruct (bit x q); reflexivity. Qed.

(** Hadamard on one qubit of a product state. *)
Lemma apply_H_product m f q :
  (q < m)%nat ->
  apply (H q) (prod_state m f) == prod_state m (upd f q (hq (f q))).
Proof.
  intros L x. simpl. unfold prod_state.
  rewrite in_range_set0, in_range_set1 by exact L.
  destruct (in_range m x).
  - rewrite (product_at q m f f x (set0 q x) L)
      by (auto using bit_set0_other).
    rewrite (product_at q m f f x (set1 q x) L)
      by (auto using bit_set1_other).
    rewrite (product_at q m f (upd f q (hq (f q))) x x L)
      by (auto using upd_other).
    generalize (bigprod m (fun i => if (i =? q)%nat then one else amp f x i)) as r.
    intros r. unfold amp. rewrite bit_set0_same, bit_set1_same, upd_same.
    destruct (bit x q); apply c_eq; simpl; ring.
  - destruct (bit x q); apply c_eq; simpl; ring.
Qed.

(** X on one qubit of a product state. *)
Lemma apply_X_product m f q :
  (q < m)%nat ->
  apply (X q) (prod_state m f) == prod_state m (upd f q (xq (f q))).
Proof.
  intros L x. simpl. unfold prod_state.
  rewrite in_range_flip by exact L.
  destruct (in_range m x); [|reflexivity].
  rewrite (product_at q m f f x (flip q x) L) by (auto using bit_flip_other).
  rewrite (product_at q m f (upd f q (xq (f q))) x x L) by (auto using upd_other).
  generalize (bigprod m (fun i => if (i =? q)%nat then one else amp f x i)) as r.
  intros r. unfold amp. rewrite bit_flip_same, upd_same.
  destruct (bit x q); reflexivity.
Qed.

(** Phase kickback: a CNOT whose target qubit holds (a, -a) flips the
    sign of the |1> amplitude of its control and leaves the target. *)
Lemma apply_CX_product m f c t :
  (c < m)%nat -> (t < m)%nat -> c <> t ->
  snd (f t) = neg (fst (f t)) ->
  apply (CX c t) (prod_state m f) == prod_state m (upd f c (zq (f c))).
Proof.
  intros Lc Lt NE Anti x. simpl. unfold prod_state.
  destruct (bit x c) eqn:Bc.
  - rewrite in_range_flip by exact Lt.
    destruct (in_range m x); [|reflexivity].
    transitivity (neg (bigprod m (amp f x))).
    + rewrite (product_at t m f f x (flip t x) Lt) by (auto using bit_flip_other).
      rewrite (product_at t m f f x x Lt) by auto.
      generalize (bigprod m (fun i => if (i =? t)%nat then one else amp f x i)) as r.
      intros r. unfold amp. rewrite bit_flip_same, Anti.
      destruct (bit x t); apply c_eq; simpl; ring.
    + rewrite (product_at c m f (upd f c (zq (f c))) x x Lc) by (auto using upd_other).
      rewrite (product_at c m f f x x Lc) by auto.
      generalize (bigprod m (fun i => if (i =? c)%nat then one else amp f x i)) as r.
      intros r. unfold amp. rewrite Bc, upd_same.
      apply c_eq; simpl; ring.
  - destruct (in_range m x); [|reflexivity].
    apply bigprod_ext. intros i _. unfold amp, upd.
    destruct (Nat.eqb_spec i c) as [->|]; [|reflexivity].
    rewrite Bc. reflexivity.
Qed.

Lemma sqrt2_twice : / sqrt 2 * (/ sqrt 2 * 1 + / sqrt 2 * 1) = 1.
Proof.
  transitivity (2 * (/ sqrt 2 * / sqrt 2)); [ring|].
  rewrite inv_sqrt2_sq. lra.
Qed.

Lemma hq_ket0 : hq ket0 = ket_plus.
Proof. unfold hq, ket0, ket_plus. f_equal; apply c_eq; simpl; ring. Qed.

Lemma hq_ket1 : hq ket1 = ket_minus.
Proof. unfold hq, ket1, ket_minus. f_equal; apply c_eq; simpl; ring. Qed.

Lemma hq_ket_plus : hq ket_plus = ket0.
Proof.
  pose proof sqrt2_twice as E.
  unfold hq, ket_plus, ket0. f_equal; apply c_eq; simpl; try ring.
  exact E.
Qed.

Lemma hq_ket_minus : hq ket_minus = ket1.
Proof.
  pose proof sqrt2_twice as E.
  unfold hq, ket_minus, ket1. f_equal; apply c_eq; simpl; try ring.
  rewrite Ropp_involutive. exact E.
Qed.

Lemma zq_ket_plus : zq ket_plus = ket_minus.
Proof. reflexivity. Qed.

Lemma xq_ket0 : xq ket0 = ket1.
Proof. reflexivity. Qed.

(** A layer of Hadamards on the qubits 0 .. k-1 of a product state. *)
Lemma run_H_layer m f k :
  (k <= m)%nat ->
  run (map H (seq 0 k)) (prod_state m f)
  == prod_state m (fun i => if (i <? k)%nat then hq (f i) else f i).
Proof.
  induction k as [|k IH]; intros L.
  - simpl. apply state_eq_refl.
  - rewrite seq_S, map_app, run_app. cbn [map run Nat.add].
    eapply state_eq_trans.
    { apply apply_ext. apply IH. lia. }
    eapply state_eq_trans.
    { apply apply_H_product. lia. }
    apply prod_state_ext. intros i _. unfold upd.
    destruct (Nat.eqb_spec i k) as [->|NE].
    + rewrite Nat.ltb_irrefl.
      assert ((k <? S k)%nat = true) as -> by (apply Nat.ltb_lt; lia).
      reflexivity.
    + destruct (Nat.ltb_spec i k), (Nat.ltb_spec i (S k)); try reflexivity; lia.
Qed.

End Product.

(* ================================================================== *)
(** ** Bernstein-Vazirani notebook: the oracle *)
(* ================================================================== *)

Module BernsteinVazirani.
Import Amp Bits Circuit Sem Py.

Local Open Scope string_scope.

(** The CNOT calls of the loop of [create_oracle], over the reversed
    secret string: [oracle.cx(i, n)] for every character 1. *)
Definition oracle_gates (secret_string : string) : list gate :=
  let n := String.length secret_string in
  let reversed_string := rev (chars secret_string) in
  flat_map (fun '(i, bit) => if is_one bit then [CX i n] else [])
           (enumerate reversed_string).

Definition create_oracle (secret_string : string) : result QuantumCircuit :=
  let n := String.length secret_string in
  extend (new_circuit (n + 1)) (oracle_gates secret_string).

(** Number of set bits. *)
Fixpoint popcount_pos (p : positive) : nat :=
  match p with
  | xH => 1
  | xO p' => popcount_pos p'
  | xI p' => S (popcount_pos p')
  end.

Definition popcount (z : N) : nat :=
  match z with
  | N0 => 0
  | Npos p => popcount_pos p
  end.

(** The value the oracle computes: popcount(x AND s) mod 2. *)
Definition dot_mod2 (x s : N) : bool := Nat.odd (popcount (N.land x s)).

(** Exclusive or of a list of bits. *)
Definition xor_list (l : list bool) : bool := fold_right xorb false l.

(** Exclusive or of the input bits selected by the 1s of an enumerated
    string. *)
Definition dot_list (l : list (nat * ascii)) (y : N) : bool :=
  xor_list (map (fun '(i, c) => bit y i && is_one c) l).

(** Value of a bit string given least significant character first. *)
Fixpoint val_lsb (l : list ascii) : N :=
  match l with
  | [] => 0
  | c :: rest => ((if is_one c then 1 else 0) + 2 * val_lsb rest)%N
  end.

Lemma int_of_bits_val_lsb s : int_of_bits s = val_lsb (rev (chars s)).
Proof.
  unfold int_of_bits.
  rewrite <- (rev_involutive (chars s)) at 1.
  rewrite <- (fold_left_rev_right
                (fun c acc => (2 * acc + (if is_one c then 1 else 0))%N)).
  rewrite rev_involutive.
  induction (rev (chars s)) as [|c l IH]; cbn [fold_right val_lsb].
  - reflexivity.
  - rewrite IH. lia.
Qed.

Lemma bit_val_lsb l : forall i, bit (val_lsb l) i = is_one (nth i l "0"%char).
Proof.
  unfold bit.
  induction l as [|c rest IH]; intros i; cbn [val_lsb].
  - rewrite N.bits_0. destruct i; reflexivity.
  - destruct i as [|i]; cbn [nth].
    + change (N.of_nat 0) with 0%N. destruct (is_one c).
      * rewrite N.add_comm. apply N.testbit_odd_0.
      * rewrite N.add_0_l. apply N.testbit_even_0.
    + rewrite Nat2N.inj_succ. destruct (is_one c).
      * rewrite N.add_comm, N.testbit_odd_succ by lia. apply IH.
      * rewrite N.add_0_l, N.testbit_even_succ by lia. apply IH.
Qed.

Lemma bit_int_of_bits s i :
  bit (int_of_bits s) i = is_one (nth i (rev (chars s)) "0"%char).
Proof. rewrite int_of_bits_val_lsb. apply bit_val_lsb. Qed.

Lemma bit_land a b i : bit (N.land a b) i = bit a i && bit b i.
Proof. unfold bit. apply N.land_spec. Qed.

Lemma popcount_div2 z :
  popcount z = ((if N.odd z then 1 else 0) + popcount (N.div2 z))%nat.
Proof. destruct z as [|[p|p|]]; simpl; reflexivity. Qed.

Lemma bit_div2 z i : bit (N.div2 z) i = bit z (S i).
Proof.
  unfold bit. rewrite Nat2N.inj_succ, N.div2_spec, N.shiftr_spec by lia.
  f_equal. lia.
Qed.

Lemma in_range_div2 n z : in_range (S n) z = true -> in_range n (N.div2 z) = true.
Proof.
  intros Hr. apply in_range_bits. intros i Hi. rewrite bit_div2.
  apply (proj1 (in_range_bits (S n) z) Hr). lia.
Qed.

(** The parity of the popcount is the exclusive or of the bits. *)
Lemma odd_popcount n : forall z,
  in_range n z = true ->
  Nat.odd (popcount z) = xor_list (map (bit z) (seq 0 n)).
Proof.
  induction n as [|n IH]; intros z Hr.
  - assert (z = 0%N) as ->.
    { apply bit_ext. intros i. rewrite bit_zero.
      apply (proj1 (in_range_bits 0 z) Hr). lia. }
    reflexivity.
  - rewrite popcount_div2. simpl seq. simpl map.
    rewrite <- seq_shift, map_map.
    rewrite (map_ext (fun i => bit z (S i)) (bit (N.div2 z)))
      by (intros; symmetry; apply bit_div2).
    simpl. rewrite <- IH by (apply in_range_div2; exact Hr).
    unfold bit at 1. simpl N.of_nat. rewrite N.bit0_odd.
    destruct (N.odd z); simpl.
    + rewrite Nat.odd_succ, <- Nat.negb_odd.
      destruct (Nat.odd (popcount (N.div2 z))); reflexivity.
    + reflexivity.
Qed.

Lemma dot_list_enumerate (l : list ascii) y : forall start,
  dot_list (enumerate_from start l) y
  = xor_list (map (fun i => bit y i && is_one (nth (i - start) l "0"%char))
                  (seq start (List.length l))).
Proof.
  unfold dot_list.
  induction l as [|c rest IH]; intros start; simpl.
  - reflexivity.
  - rewrite Nat.sub_diag. f_equal. rewrite IH.
    f_equal. apply map_ext_in. intros i Hi. apply in_seq in Hi.
    replace (i - start)%nat with (S (i - S start)) by lia. reflexivity.
Qed.

(** The selected exclusive or is popcount(x AND s) mod 2. *)
Lemma dot_list_secret s x :
  dot_list (enumerate (rev (chars s))) x = dot_mod2 x (int_of_bits s).
Proof.
  unfold dot_mod2, enumerate.
  rewrite dot_list_enumerate.
  rewrite (odd_popcount (List.length (rev (chars s)))).
  - f_equal. apply map_ext. intros i.
    rewrite bit_land, bit_int_of_bits, Nat.sub_0_r. reflexivity.
  - apply in_range_bits. intros i Hi.
    rewrite bit_land, bit_int_of_bits, nth_overflow by exact Hi.
    apply andb_false_r.
Qed.

(** What a run of CNOTs onto one target does to a basis index. *)
Lemma crun_cx_list n (l : list (nat * ascii)) :
  (forall i c, In (i, c) l -> i <> n) ->
  forall y k,
    bit (crun (flat_map (fun '(i, c) => if is_one c then [CX i n] else []) l) y) k
    = if (k =? n)%nat then xorb (bit y n) (dot_list l y) else bit y k.
Proof.
  unfold dot_list.
  induction l as [|[i c] rest IH]; intros NE y k.
  - simpl. destruct (Nat.eqb_spec k n) as [->|];
      [rewrite xorb_false_r|]; reflexivity.
  - assert (i <> n) as Hi by (apply (NE i c); left; reflexivity).
    assert (forall j d, In (j, d) rest -> j <> n) as NE'
        by (intros j d Hj; apply (NE j d); right; exact Hj).
    simpl flat_map. rewrite crun_app, (IH NE').
    assert (forall j, j <> n ->
                      bit (crun (if is_one c then [CX i n] else []) y) j = bit y j)
      as Same.
    { intros j Hj. destruct (is_one c); simpl; [|reflexivity].
      destruct (bit y i); [|reflexivity].
      rewrite bit_flip. destruct (Nat.eqb_spec j n); [contradiction|].
      apply xorb_false_r. }
    assert (map (fun '(j, d) =>
                   bit (crun (if is_one c then [CX i n] else []) y) j && is_one d) rest
            = map (fun '(j, d) => bit y j && is_one d) rest) as ->.
    { apply map_ext_in. intros [j d] Hj. rewrite Same; [reflexivity|].
      apply (NE' j d Hj). }
    destruct (Nat.eqb_spec k n) as [->|Hk].
    + simpl map. simpl xor_list.
      destruct (is_one c); simpl.
      * destruct (bit y i) eqn:Bi; simpl.
        -- rewrite bit_flip, Nat.eqb_refl.
           destruct (bit y n), (xor_list (map (fun '(j, d) => bit y j && is_one d) rest));
             reflexivity.
        -- reflexivity.
      * rewrite andb_false_r. reflexivity.
    + apply Same. exact Hk.
Qed.

Lemma enumerate_in_bound {A} (l : list A) i a :
  In (i, a) (enumerate l) -> (i < List.length l)%nat.
Proof. intros Hin. apply enumerate_from_bound in Hin. lia. Qed.

Lemma oracle_gates_shape s :
  Forall (fun g => exists c, g = CX c (String.length s)
                             /\ (c < String.length s)%nat)
         (oracle_gates s).
Proof.
  unfold oracle_gates. apply Forall_forall. intros g Hg.
  apply in_flat_map in Hg as ([i c] & Hin & Hg).
  apply enumerate_in_bound in Hin. rewrite length_rev, length_chars in Hin.
  destruct (is_one c); simpl in Hg; [|contradiction].
  destruct Hg as [<-|[]]. exists i. split; [reflexivity|exact Hin].
Qed.

Lemma oracle_gates_wf s :
  Forall (wf_gate (String.length s + 1)) (oracle_gates s).
Proof.
  eapply Forall_impl; [|apply oracle_gates_shape].
  intros g (c & -> & L). simpl. lia.
Qed.

Lemma oracle_gates_classical s : forallb classical (oracle_gates s) = true.
Proof.
  apply forallb_forall. intros g Hg.
  pose proof (oracle_gates_shape s) as F. rewrite Forall_forall in F.
  destruct (F g Hg) as (c & -> & _). reflexivity.
Qed.

Lemma create_oracle_ok s :
  create_oracle s = Ok (mkQC (String.length s + 1) (oracle_gates s) 0).
Proof.
  unfold create_oracle.
  rewrite extend_wf by (simpl; apply oracle_gates_wf). reflexivity.
Qed.

Lemma dot_mod2_low x y s :
  (forall i, (i < String.length s)%nat -> bit x i = bit y i) ->
  dot_mod2 x (int_of_bits s) = dot_mod2 y (int_of_bits s).
Proof.
  intros E. unfold dot_mod2. f_equal. f_equal.
  apply bit_ext. intros i. rewrite !bit_land, bit_int_of_bits.
  destruct (Nat.lt_ge_cases i (String.length s)) as [L|G].
  - rewrite E by exact L. reflexivity.
  - rewrite nth_overflow by (rewrite length_rev, length_chars; exact G).
    rewrite !andb_false_r. reflexivity.
Qed.

(** The oracle as a map on basis indices: the ancilla bit [n] takes up
    popcount(y AND s) mod 2 and every other bit stays. *)
Lemma crun_oracle s y k :
  bit (crun (oracle_gates s) y) k
  = if (k =? String.length s)%nat
    then xorb (bit y (String.length s)) (dot_mod2 y (int_of_bits s))
    else bit y k.
Proof.
  unfold oracle_gates. rewrite crun_cx_list.
  - rewrite dot_list_secret. reflexivity.
  - intros i c Hin. apply enumerate_in_bound in Hin.
    rewrite length_rev, length_chars in Hin. lia.
Qed.

Lemma bit_put q b x i : bit (put q b x) i = if (i =? q)%nat then b else bit x i.
Proof.
  unfold put. destruct b; rewrite ?bit_set1, ?bit_set0;
    destruct (i =? q)%nat; simpl; rewrite ?andb_true_r, ?andb_false_r;
    reflexivity.
Qed.

Lemma run_oracle s y :
  run (oracle_gates s) (basis y) == basis (crun (oracle_gates s) y).
Proof.
  apply (run_basis (String.length s + 1)).
  - apply oracle_gates_classical.
  - apply oracle_gates_wf.
Qed.

(** On an n-bit input [x], [put n a x] is the index x + a * 2^n: input
    [x] on the qubits below [n] and [a] on the ancilla. *)
Lemma put_value n a x :
  in_range n x = true ->
  put n a x = (x + (if a then 2 ^ N.of_nat n else 0))%N.
Proof.
  intros Hr.
  assert (bit x n = false) as Bn by (apply (proj1 (in_range_bits n x) Hr); lia).
  destruct a; simpl.
  - transitivity (flip n x).
    + apply bit_ext. intros i. rewrite bit_set1, bit_flip.
      destruct (Nat.eqb_spec i n) as [->|]; [rewrite Bn; reflexivity|].
      rewrite xorb_false_r. reflexivity.
    + unfold flip. rewrite N.shiftl_1_l. symmetry.
      apply N.add_nocarry_lxor. apply N.bits_inj. intros k.
      rewrite N.land_spec, N.bits_0, N.pow2_bits_eqb.
      destruct (N.eqb_spec (N.of_nat n) k) as [<-|]; [|apply andb_false_r].
      unfold bit in Bn. rewrite Bn. reflexivity.
  - rewrite N.add_0_r. apply bit_ext. intros i. rewrite bit_set0.
    destruct (Nat.eqb_spec i n) as [->|]; [rewrite Bn; reflexivity|].
    apply andb_true_r.
Qed.

(** C3: for a secret bit string [s] of length n <= 8 and an n-bit
    input [x], the oracle circuit sends the basis state with input [x] and
    ancilla [a] to the basis state with input [x] and ancilla
    a XOR (popcount(x AND s) mod 2). *)
Theorem oracle_computes_dot_product (s : string) (x : N) (a : bool) :
  bitstring s = true ->
  (String.length s <= 8)%nat ->
  in_range (String.length s) x = true ->
  exists oracle,
    create_oracle s = Ok oracle /\
    run (data oracle) (basis (put (String.length s) a x))
    == basis (put (String.length s)
                  (xorb a (Nat.odd (popcount (N.land x (int_of_bits s))))) x).
Proof.
  intros _ _ Hx. eexists. split; [apply create_oracle_ok|]. simpl data.
  assert (crun (oracle_gates s) (put (String.length s) a x)
          = put (String.length s)
                (xorb a (Nat.odd (popcount (N.land x (int_of_bits s))))) x) as <-.
  { apply bit_ext. intros k. rewrite crun_oracle, !bit_put.
    destruct (Nat.eqb_spec k (String.length s)) as [->|NE]; [|reflexivity].
    rewrite Nat.eqb_refl. f_equal. apply dot_mod2_low. intros i Hi. rewrite bit_put.
    destruct (Nat.eqb_spec i (String.length s)); [lia|reflexivity]. }
  apply run_oracle.
Qed.

Lemma oracle_computes_dot_product_witness :
  exists oracle,
    create_oracle "101" = Ok oracle /\
    run (data oracle) (basis (put 3 false 6))
    == basis (put 3 (xorb false (Nat.odd (popcount (N.land 6 (int_of_bits "101"))))) 6).
Proof.
  apply (oracle_computes_dot_product "101" 6 false);
    [reflexivity | simpl; lia | reflexivity].
Defined.

(** C10: every gate of the oracle circuit is a CNOT from an input
    qubit onto the ancilla qubit n, and on every basis state the circuit
    leaves a basis state with the same values on all n input qubits. *)
Theorem oracle_preserves_inputs (s : string) :
  exists oracle,
    create_oracle s = Ok oracle /\
    Forall (fun g => exists c, g = CX c (String.length s)
                               /\ (c < String.length s)%nat)
           (data oracle) /\
    forall y, exists y',
      run (data oracle) (basis y) == basis y' /\
      forall i, i <> String.length s -> bit y' i = bit y i.
Proof.
  eexists. split; [apply create_oracle_ok|]. simpl data.
  split; [apply oracle_gates_shape|].
  intros y. exists (crun (oracle_gates s) y). split; [apply run_oracle|].
  intros i Hi. rewrite crun_oracle.
  destruct (Nat.eqb_spec i (String.length s)); [contradiction|reflexivity].
Qed.

(** [bernstein_vazirani]: the ancilla is set to |1>, every qubit gets a
    Hadamard ([qc.h(qreg)]), the oracle's gates are composed in, the input
    qubits get a second Hadamard ([qc.h(qreg[:n])]) and are measured into
    the classical register.  With [n = oracle.num_qubits - 1], an oracle of
    no qubit makes the classical register's size negative, and an oracle of
    one qubit (n = 0) makes [qreg[:n]] empty, which [qc.h] refuses. *)
Definition bernstein_vazirani (oracle : QuantumCircuit) : result QuantumCircuit :=
  match num_qubits oracle with
  | O => Raise (CircuitRegisterError (-1))
  | S n =>
      qc <- extend (new_circuit (n + 1)) [X n] ;;
      qc <- h_all qc (range 0 (n + 1)) ;;
      qc <- extend qc (data oracle) ;;
      qc <- h_all qc (range 0 n) ;;
      Ok (measure_low n qc)
  end.

(** The gate list of the algorithm for the secret [s]. *)
Definition bv_gates (s : string) : list gate :=
  let n := String.length s in
  [X n] ++ map H (seq 0 (n + 1)) ++ oracle_gates s ++ map H (seq 0 n).

(** The qubit-by-qubit description of the state the algorithm leaves:
    input qubit [i] holds the bit [i] of the secret, the ancilla holds
    |0> - |1>. *)
Definition answer (s : string) : nat -> Product.qubit :=
  fun i =>
    if (i <? String.length s)%nat
    then (if is_one (nth i (rev (chars s)) "0"%char)
          then Product.ket1 else Product.ket0)
    else Product.ket_minus.

Lemma map_H_wf m k : (k <= m)%nat -> Forall (wf_gate m) (map H (seq 0 k)).
Proof.
  intros L. apply Forall_forall. intros g Hg.
  apply in_map_iff in Hg as (i & <- & Hi). apply in_seq in Hi. simpl. lia.
Qed.

Lemma h_all_ok qc k :
  (1 <= k)%nat -> (k <= num_qubits qc)%nat ->
  h_all qc (range 0 k)
  = Ok (mkQC (num_qubits qc) (data qc ++ map H (seq 0 k)) (measured qc)).
Proof.
  intros L1 L2. unfold h_all, range. rewrite Nat.sub_0_r.
  destruct (seq 0 k) as [|q qs] eqn:E.
  - destruct k; [lia|discriminate].
  - rewrite <- E. apply extend_wf. apply map_H_wf. exact L2.
Qed.

Lemma bernstein_vazirani_ok s :
  (1 <= String.length s)%nat ->
  bernstein_vazirani (mkQC (String.length s + 1) (oracle_gates s) 0)
  = Ok (mkQC (String.length s + 1) (bv_gates s) (String.length s)).
Proof.
  intros L1. unfold bernstein_vazirani, bv_gates. cbn [num_qubits data].
  rewrite (Nat.add_1_r (String.length s)) at 1.
  rewrite extend_wf by (repeat constructor; simpl; lia).
  cbn [bind num_qubits data measured new_circuit].
  rewrite h_all_ok by (cbn [num_qubits]; lia).
  cbn [bind num_qubits data measured].
  rewrite extend_wf by (apply oracle_gates_wf).
  cbn [bind num_qubits data measured].
  rewrite h_all_ok by (cbn [num_qubits]; lia).
  cbn [bind num_qubits data measured measure_low].
  rewrite <- !app_assoc. reflexivity.
Qed.

(** The oracle's CNOTs on a product state whose ancilla holds (a, -a):
    the control qubits picked by the 1s get a phase flip. *)
Lemma run_cx_list_product m n (l : list ascii) :
  forall start (f : nat -> Product.qubit),
    (start + List.length l <= n)%nat -> (n < m)%nat ->
    snd (f n) = neg (fst (f n)) ->
    run (flat_map (fun '(i, c) => if is_one c then [CX i n] else [])
                  (enumerate_from start l))
        (Product.prod_state m f)
    == Product.prod_state m
         (fun i => if ((start <=? i)%nat && (i <? start + List.length l)%nat
                       && is_one (nth (i - start) l "0"%char))%bool
                   then Product.zq (f i) else f i).
Proof.
  induction l as [|c rest IH]; intros start f Ls Ln Anti.
  - simpl. apply Product.prod_state_ext. intros i _.
    rewrite Nat.add_0_r.
    destruct (Nat.leb_spec start i), (Nat.ltb_spec i start); simpl;
      try reflexivity; lia.
  - simpl List.length in *. cbn [enumerate_from flat_map]. rewrite run_app.
    set (f1 := if is_one c then Product.upd f start (Product.zq (f start)) else f).
    assert (run (if is_one c then [CX start n] else []) (Product.prod_state m f)
            == Product.prod_state m f1) as E1.
    { subst f1. destruct (is_one c); cbn [run].
      - apply Product.apply_CX_product; try lia. exact Anti.
      - apply state_eq_refl. }
    assert (f1 n = f n) as En.
    { subst f1. destruct (is_one c); [|reflexivity].
      apply Product.upd_other. lia. }
    eapply state_eq_trans; [apply run_ext, E1|].
    eapply state_eq_trans.
    { apply (IH (S start) f1); [lia | exact Ln | rewrite En; exact Anti]. }
    apply Product.prod_state_ext. intros i _.
    destruct (Nat.eq_dec i start) as [->|NE].
    + rewrite Nat.sub_diag. cbn [nth].
      assert ((S start <=? start)%nat = false) as -> by (apply Nat.leb_gt; lia).
      assert ((start <=? start)%nat = true) as -> by (apply Nat.leb_le; lia).
      assert ((start <? start + S (List.length rest))%nat = true) as ->
          by (apply Nat.ltb_lt; lia).
      simpl. subst f1. destruct (is_one c); [apply Product.upd_same|reflexivity].
    + assert (f1 i = f i) as ->.
      { subst f1. destruct (is_one c); [|reflexivity].
        apply Product.upd_other. exact NE. }
      destruct (Nat.leb_spec (S start) i) as [G|G].
      * assert ((start <=? i)%nat = true) as -> by (apply Nat.leb_le; lia).
        replace (i - start)%nat with (S (i - S start)) by lia. cbn [nth].
        replace (S start + List.length rest)%nat
          with (start + S (List.length rest))%nat by lia.
        reflexivity.
      * assert ((start <=? i)%nat = false) as -> by (apply Nat.leb_gt; lia).
        reflexivity.
Qed.

(** The state the algorithm leaves. *)
Lemma bv_final_state s :
  run (bv_gates s) (basis 0)
  == Product.prod_state (String.length s + 1) (answer s).
Proof.
  set (n := String.length s). set (m := (n + 1)%nat).
  unfold bv_gates. fold n. fold m.
  rewrite !run_app. cbn [run].
  (* |0...0>, then X on the ancilla *)
  set (f1 := Product.upd (fun _ => Product.ket0) n Product.ket1).
  assert (apply (X n) (basis 0) == Product.prod_state m f1) as E1.
  { eapply state_eq_trans.
    - apply apply_ext. apply (Product.basis_zero_product m).
    - apply Product.apply_X_product. subst m. lia. }
  (* Hadamard on every qubit *)
  set (f2 := fun i : nat => if (i <? n)%nat then Product.ket_plus else Product.ket_minus).
  assert (run (map H (seq 0 m)) (apply (X n) (basis 0)) == Product.prod_state m f2)
    as E2.
  { eapply state_eq_trans; [apply run_ext, E1|].
    eapply state_eq_trans; [apply Product.run_H_layer; lia|].
    apply Product.prod_state_ext. intros i Hi.
    assert ((i <? m)%nat = true) as -> by (apply Nat.ltb_lt; exact Hi).
    subst f1 f2. unfold Product.upd.
    destruct (Nat.eqb_spec i n) as [->|NE].
    - rewrite Nat.ltb_irrefl. apply Product.hq_ket1.
    - assert ((i <? n)%nat = true) as -> by (apply Nat.ltb_lt; subst m; lia).
      apply Product.hq_ket0. }
  (* the oracle: phase kickback *)
  set (f3 := fun i : nat =>
               if (i <? n)%nat
               then (if is_one (nth i (rev (chars s)) "0"%char)
                     then Product.ket_minus else Product.ket_plus)
               else Product.ket_minus).
  assert (run (oracle_gates s) (run (map H (seq 0 m)) (apply (X n) (basis 0)))
          == Product.prod_state m f3) as E3.
  { eapply state_eq_trans; [apply run_ext, E2|].
    unfold oracle_gates, enumerate. fold n.
    eapply state_eq_trans.
    { apply (run_cx_list_product m n).
      - rewrite length_rev, length_chars. fold n. lia.
      - subst m. lia.
      - subst f2. cbn beta. rewrite Nat.ltb_irrefl. reflexivity. }
    apply Product.prod_state_ext. intros i _.
    rewrite length_rev, length_chars. fold n.
    rewrite Nat.sub_0_r. cbn [Nat.leb Nat.add andb].
    subst f2 f3. cbn beta.
    destruct (Nat.ltb_spec i n).
    - destruct (is_one (nth i (rev (chars s)) "0"%char)); reflexivity.
    - reflexivity. }
  (* Hadamard on the input qubits *)
  eapply state_eq_trans; [apply run_ext, E3|].
  eapply state_eq_trans; [apply Product.run_H_layer; subst m; lia|].
  apply Product.prod_state_ext. intros i _.
  subst f3. unfold answer. fold n.
  destruct (Nat.ltb_spec i n); [|reflexivity].
  destruct (is_one (nth i (rev (chars s)) "0"%char)).
  - apply Product.hq_ket_minus.
  - apply Product.hq_ket_plus.
Qed.

Lemma in_range_int_of_bits s : in_range (String.length s) (int_of_bits s) = true.
Proof.
  apply in_range_bits. intros i Hi. rewrite bit_int_of_bits.
  rewrite nth_overflow by (rewrite length_rev, length_chars; exact Hi).
  reflexivity.
Qed.

Lemma in_range_weaken m k x :
  (m <= k)%nat -> in_range m x = true -> in_range k x = true.
Proof.
  intros L Hr. apply in_range_bits. intros i Hi.
  apply (proj1 (in_range_bits m x) Hr). lia.
Qed.

(** Adding 2^n to an index whose bit [n] is clear sets that bit. *)
Lemma add_pow2_flip n v :
  bit v n = false -> (v + 2 ^ N.of_nat n)%N = flip n v.
Proof.
  intros B. unfold flip. rewrite N.shiftl_1_l.
  apply N.add_nocarry_lxor. apply N.bits_inj. intros k.
  rewrite N.land_spec, N.bits_0, N.pow2_bits_eqb.
  destruct (N.eqb_spec (N.of_nat n) k) as [<-|]; [|apply andb_false_r].
  unfold bit in B. rewrite B. reflexivity.
Qed.

(** Weight of an index whose input bits spell the secret: one half. *)
Lemma answer_weight s x :
  in_range (String.length s + 1) x = true ->
  (forall i, (i < String.length s)%nat -> bit x i = bit (int_of_bits s) i) ->
  norm2 (Product.prod_state (String.length s + 1) (answer s) x) = / 2.
Proof.
  intros Hr Low. unfold Product.prod_state. rewrite Hr.
  rewrite Nat.add_1_r. cbn [Product.bigprod].
  rewrite Product.bigprod_one.
  - rewrite mul_one_l. unfold Product.amp, answer.
    rewrite Nat.ltb_irrefl.
    destruct (bit x (String.length s)); unfold norm2; simpl;
      (transitivity (/ sqrt 2 * / sqrt 2); [ring | apply inv_sqrt2_sq]).
  - intros i Hi. unfold Product.amp, answer.
    assert ((i <? String.length s)%nat = true) as -> by (apply Nat.ltb_lt; exact Hi).
    rewrite (Low i Hi), bit_int_of_bits.
    destruct (is_one (nth i (rev (chars s)) "0"%char)); reflexivity.
Qed.

(** Weight of an index one of whose input bits differs from the secret:
    none. *)
Lemma answer_weight_other s x i :
  (i < String.length s)%nat ->
  bit x i <> bit (int_of_bits s) i ->
  norm2 (Product.prod_state (String.length s + 1) (answer s) x) = 0.
Proof.
  intros Hi Diff. unfold Product.prod_state.
  destruct (in_range (String.length s + 1) x); [|apply norm2_zero].
  rewrite (Product.bigprod_zero i); [apply norm2_zero | lia |].
  unfold Product.amp, answer.
  assert ((i <? String.length s)%nat = true) as -> by (apply Nat.ltb_lt; exact Hi).
  rewrite bit_int_of_bits in Diff.
  destruct (bit x i), (is_one (nth i (rev (chars s)) "0"%char));
    try reflexivity; congruence.
Qed.

(** The two indices behind a key of the [n] measured qubits. *)
Lemma marginal_low_qubits n st v :
  marginal (n + 1) n st v
  = norm2 (st v) + norm2 (st (v + 2 ^ N.of_nat n)%N).
Proof.
  unfold marginal. replace (n + 1 - n)%nat with 1%nat by lia.
  cbn [Nat.pow Nat.mul Nat.add seq map rsum fold_right].
  change (N.of_nat 0) with 0%N. change (N.of_nat 1) with 1%N.
  rewrite N.mul_0_l, N.add_0_r, N.mul_1_l. ring.
Qed.

(** The algorithm on the oracle of a non-empty [s] reports the key [s]
    with probability 1, whatever the length of [s]. *)
Lemma bernstein_vazirani_recovers s :
  bitstring s = true ->
  (1 <= String.length s)%nat ->
  exists oracle qc,
    create_oracle s = Ok oracle /\
    bernstein_vazirani oracle = Ok qc /\
    data qc = ([X (String.length s)] ++ map H (seq 0 (String.length s + 1))
               ++ data oracle ++ map H (seq 0 (String.length s)))%list /\
    outcome_prob qc s = 1%R.
Proof.
  intros Bs L1. eexists. eexists.
  split; [apply create_oracle_ok|].
  split; [apply bernstein_vazirani_ok; exact L1|].
  split; [reflexivity|].
  unfold outcome_prob. cbn [measured num_qubits].
  rewrite Nat.eqb_refl, Bs. cbn [andb].
  rewrite marginal_low_qubits. unfold final_state. cbn [data].
  rewrite !(bv_final_state s _).
  pose proof (in_range_int_of_bits s) as Hv.
  assert (bit (int_of_bits s) (String.length s) = false) as Bn
      by (apply (proj1 (in_range_bits _ _) Hv); lia).
  rewrite (add_pow2_flip _ _ Bn).
  rewrite !answer_weight.
  - lra.
  - rewrite in_range_flip by lia.
    apply (in_range_weaken (String.length s)); [lia | exact Hv].
  - intros i Hi. apply Product.bit_flip_other. lia.
  - apply (in_range_weaken (String.length s)); [lia | exact Hv].
  - reflexivity.
Qed.

Lemma is_bit_is_one c d : is_bit c = true -> is_bit d = true ->
  is_one c = is_one d -> c = d.
Proof.
  unfold is_bit, is_one. intros Hc Hd E.
  apply orb_true_iff in Hc as [Hc|Hc]; apply orb_true_iff in Hd as [Hd|Hd];
    apply Ascii.eqb_eq in Hc, Hd; subst; try reflexivity; discriminate.
Qed.

(** Two bit strings of one length that name the same value are equal. *)
Lemma int_of_bits_inj a b :
  bitstring a = true -> bitstring b = true ->
  String.length a = String.length b ->
  (forall i, (i < String.length a)%nat ->
             bit (int_of_bits a) i = bit (int_of_bits b) i) ->
  a = b.
Proof.
  intros Ba Bb L E.
  rewrite <- (string_of_list_ascii_of_string a), <- (string_of_list_ascii_of_string b).
  f_equal. fold (chars a). fold (chars b).
  rewrite <- (rev_involutive (chars a)), <- (rev_involutive (chars b)). f_equal.
  unfold bitstring in Ba, Bb. rewrite forallb_forall in Ba, Bb.
  apply (nth_ext _ _ "0"%char "0"%char).
  - rewrite !length_rev, !length_chars. exact L.
  - intros i Hi. rewrite length_rev, length_chars in Hi.
    specialize (E i Hi). rewrite !bit_int_of_bits in E.
    apply is_bit_is_one; [| |exact E].
    + apply Ba. apply in_rev. apply nth_In.
      rewrite length_rev, length_chars. exact Hi.
    + apply Bb. apply in_rev. apply nth_In.
      rewrite length_rev, length_chars. lia.
Qed.

Lemma forallb_false_witness {A} (f : A -> bool) l :
  forallb f l = false -> exists x, In x l /\ f x = false.
Proof.
  induction l as [|a l IH]; simpl; intros F; [discriminate|].
  destruct (f a) eqn:Fa.
  - destruct (IH F) as (x & Hx & Fx). exists x. auto.
  - exists a. auto.
Qed.

(** No other key is ever reported. *)
Lemma bernstein_vazirani_other_keys s key :
  bitstring s = true -> key <> s ->
  outcome_prob (mkQC (String.length s + 1) (bv_gates s) (String.length s)) key
  = 0%R.
Proof.
  intros Bs NE. unfold outcome_prob. cbn [measured num_qubits].
  destruct (Nat.eqb_spec (String.length key) (String.length s)) as [L|];
    [|reflexivity].
  destruct (bitstring key) eqn:Bk; [|reflexivity]. cbn [andb].
  set (same := fun i => Bool.eqb (bit (int_of_bits key) i) (bit (int_of_bits s) i)).
  destruct (forallb same (seq 0 (String.length s))) eqn:F.
  - exfalso. apply NE. apply int_of_bits_inj; try assumption.
    intros i Hi. rewrite forallb_forall in F.
    apply Bool.eqb_prop. apply (F i). apply in_seq. lia.
  - apply forallb_false_witness in F as (i & Hi & Fi).
    apply in_seq in Hi. subst same. apply Bool.eqb_false_iff in Fi.
    rewrite marginal_low_qubits. unfold final_state. cbn [data].
    rewrite !(bv_final_state s _).
    pose proof (in_range_int_of_bits key) as Hv. rewrite L in Hv.
    assert (bit (int_of_bits key) (String.length s) = false) as Bn
        by (apply (proj1 (in_range_bits _ _) Hv); lia).
    rewrite (add_pow2_flip _ _ Bn).
    rewrite (answer_weight_other s _ i), (answer_weight_other s _ i);
      try lia; try assumption.
    + lra.
    + rewrite Product.bit_flip_other by lia. exact Fi.
Qed.

(** C1, as the code has it: for the empty secret string the oracle has
    the ancilla as its only qubit, [qreg[:0]] is empty and the second
    Hadamard call raises the framework's error for an empty argument: no
    circuit is built and nothing is measured. *)
Lemma bernstein_vazirani_empty_raises :
  (exists oracle,
      create_oracle "" = Ok oracle /\
      bernstein_vazirani oracle = Raise CircuitEmptyArgumentError) /\
  ~ (exists oracle qc,
        create_oracle "" = Ok oracle /\
        bernstein_vazirani oracle = Ok qc).
Proof.
  split.
  - eexists. split; reflexivity.
  - intros (oracle & qc & E1 & E2).
    vm_compute in E1. inversion E1; subst oracle.
    vm_compute in E2. discriminate.
Qed.

(** C1, amended: for a secret bit string [s] of length 1 <= n <= 8, the
    circuit that [bernstein_vazirani] builds from [create_oracle s] (X on
    the ancilla, Hadamards on all qubits, the oracle's gates once, Hadamards
    on the input qubits, measurement of the input qubits) reports the key
    [s] with probability 1, and every other key with probability 0. *)
Theorem bernstein_vazirani_correct (s : string) :
  bitstring s = true ->
  (1 <= String.length s)%nat ->
  (String.length s <= 8)%nat ->
  exists oracle qc,
    create_oracle s = Ok oracle /\
    bernstein_vazirani oracle = Ok qc /\
    data qc = ([X (String.length s)] ++ map H (seq 0 (String.length s + 1))
               ++ data oracle ++ map H (seq 0 (String.length s)))%list /\
    measured qc = String.length s /\
    outcome_prob qc s = 1%R /\
    (forall key, key <> s -> outcome_prob qc key = 0%R).
Proof.
  intros Bs L1 _.
  destruct (bernstein_vazirani_recovers s Bs L1) as (oracle & qc & E1 & E2 & E3 & E4).
  exists oracle, qc.
  rewrite create_oracle_ok in E1. inversion E1; subst oracle.
  rewrite bernstein_vazirani_ok in E2 by exact L1. inversion E2; subst qc.
  repeat split; try assumption.
  - apply create_oracle_ok.
  - apply bernstein_vazirani_ok. exact L1.
  - intros key NE. apply bernstein_vazirani_other_keys; assumption.
Qed.

Lemma bernstein_vazirani_correct_witness :
  exists oracle qc,
    create_oracle "101101" = Ok oracle /\
    bernstein_vazirani oracle = Ok qc /\
    data qc = ([X 6] ++ map H (seq 0 7) ++ data oracle ++ map H (seq 0 6))%list /\
    measured qc = 6%nat /\
    outcome_prob qc "101101" = 1%R /\
    (forall key, key <> "101101" -> outcome_prob qc key = 0%R).
Proof.
  apply (bernstein_vazirani_correct "101101");
    [reflexivity | simpl; lia | simpl; lia].
Defined.

End BernsteinVazirani.

(* ================================================================== *)
(** ** QFT.ipynb *)
(* ================================================================== *)

Module QFT.
Import Amp Bits Circuit Sem Py.

(** The final loop of [apply_qft] and the first of [apply_inverse_qft]:
    [qc.swap(i, n - i - 1)] for [i] in [range(n // 2)]. *)
Definition reversal_gates (n : nat) : list gate :=
  map (fun i => SWAP i (n - i - 1)) (range 0 (n / 2)).

(** The gate calls of [apply_qft(qc, n)], in order. *)
Definition qft_gates (n : nat) : list gate :=
  flat_map (fun i =>
              H i :: map (fun j => CP (PI / 2 ^ (j - i)) j i) (range (i + 1) n))
           (range 0 n)
  ++ reversal_gates n.

Definition apply_qft (qc : QuantumCircuit) (n : nat) : result QuantumCircuit :=
  extend qc (qft_gates n).

(** The gate calls of [apply_inverse_qft(qc, n)], in order. *)
Definition inverse_qft_gates (n : nat) : list gate :=
  reversal_gates n
  ++ flat_map (fun i =>
                 map (fun j => CP (- PI / 2 ^ (j - i)) j i) (range_down (i + 1) n)
                 ++ [H i])
              (range_down 0 n).

Definition apply_inverse_qft (qc : QuantumCircuit) (n : nat)
  : result QuantumCircuit :=
  extend qc (inverse_qft_gates n).

(** [h] undoes [g]. *)
Definition cancels (g h : gate) : Prop :=
  forall s, apply h (apply g s) == s.

(** [g] and [h] may be exchanged. *)
Definition commutes (g h : gate) : Prop :=
  forall s, apply g (apply h s) == apply h (apply g s).

Lemma hadamard_twice_0 a b :
  scale (/ sqrt 2) (add (scale (/ sqrt 2) (add a b))
                        (scale (/ sqrt 2) (add a (neg b)))) = a.
Proof.
  pose proof inv_sqrt2_sq as E.
  apply c_eq; simpl.
  - transitivity (2 * (/ sqrt 2 * / sqrt 2) * fst a); [ring|]. rewrite E. lra.
  - transitivity (2 * (/ sqrt 2 * / sqrt 2) * snd a); [ring|]. rewrite E. lra.
Qed.

Lemma hadamard_twice_1 a b :
  scale (/ sqrt 2) (add (scale (/ sqrt 2) (add a b))
                        (neg (scale (/ sqrt 2) (add a (neg b))))) = b.
Proof.
  pose proof inv_sqrt2_sq as E.
  apply c_eq; simpl.
  - transitivity (2 * (/ sqrt 2 * / sqrt 2) * fst b); [ring|]. rewrite E. lra.
  - transitivity (2 * (/ sqrt 2 * / sqrt 2) * snd b); [ring|]. rewrite E. lra.
Qed.

Lemma cancels_H q : cancels (H q) (H q).
Proof.
  intros s x. simpl.
  replace (set0 q (set0 q x)) with (set0 q x) by solve_bits.
  replace (set1 q (set0 q x)) with (set1 q x) by solve_bits.
  replace (set0 q (set1 q x)) with (set0 q x) by solve_bits.
  replace (set1 q (set1 q x)) with (set1 q x) by solve_bits.
  rewrite Product.bit_set0_same, Product.bit_set1_same.
  destruct (bit x q) eqn:B.
  - rewrite hadamard_twice_1. f_equal. solve_bits.
  - rewrite hadamard_twice_0. f_equal. solve_bits.
Qed.

Lemma cancels_CP theta theta' c t :
  theta' = - theta -> cancels (CP theta c t) (CP theta' c t).
Proof.
  intros -> s x. simpl.
  destruct (bit x c && bit x t); [apply expi_inverse|reflexivity].
Qed.

Lemma cancels_SWAP a b : cancels (SWAP a b) (SWAP a b).
Proof. intros s x. simpl. rewrite swapbits_involutive. reflexivity. Qed.

Lemma commutes_SWAP a b c d :
  a <> c -> a <> d -> b <> c -> b <> d ->
  commutes (SWAP a b) (SWAP c d).
Proof.
  intros Hac Had Hbc Hbd s x. simpl. f_equal.
  apply bit_ext. intros i. rewrite !bit_swapbits.
  repeat match goal with
         | |- context [ (?u =? ?v)%nat ] => destruct (Nat.eqb_spec u v)
         end; subst; try reflexivity; try contradiction; try congruence.
Qed.

(** A gate that commutes with every gate of a list moves across it. *)
Lemma commutes_run g gs :
  Forall (commutes g) gs ->
  forall s, apply g (run gs s) == run gs (apply g s).
Proof.
  induction gs as [|h rest IH]; intros F s; simpl.
  - apply state_eq_refl.
  - inversion F as [|? ? Ch Cr]; subst.
    eapply state_eq_trans; [apply (IH Cr)|].
    apply run_ext. apply Ch.
Qed.

(** A list followed by the list of its cancelling gates in reverse order
    is the identity. *)
Lemma run_cancel gs hs :
  Forall2 cancels gs hs -> forall s, run (gs ++ rev hs) s == s.
Proof.
  induction 1 as [|g h gs hs Cgh F IH]; intros s.
  - simpl. apply state_eq_refl.
  - simpl. rewrite app_assoc, run_app. cbn [run].
    eapply state_eq_trans; [apply apply_ext, IH|]. apply Cgh.
Qed.

Lemma rev_flat_map {A B} (G : A -> list B) l :
  rev (flat_map G l) = flat_map (fun a => rev (G a)) (rev l).
Proof.
  induction l as [|a l IH]; simpl.
  - reflexivity.
  - rewrite rev_app_distr, IH, flat_map_app. simpl.
    rewrite app_nil_r. reflexivity.
Qed.


(** The Hadamard-and-phase ladder of the forward transform, and the gates
    that undo it, block by block. *)
Definition ladder (n : nat) : list gate :=
  flat_map (fun i =>
              H i :: map (fun j => CP (PI / 2 ^ (j - i)) j i) (range (i + 1) n))
           (range 0 n).

Definition ladder_undo (n : nat) : list gate :=
  flat_map (fun i =>
              H i :: map (fun j => CP (- PI / 2 ^ (j - i)) j i) (range (i + 1) n))
           (range 0 n).

Lemma ladder_cancels n : Forall2 cancels (ladder n) (ladder_undo n).
Proof.
  unfold ladder, ladder_undo.
  induction (range 0 n) as [|i l IH]; simpl.
  - constructor.
  - constructor; [apply cancels_H|].
    apply Forall2_app; [|exact IH].
    induction (range (i + 1) n) as [|j js IHj]; simpl; constructor.
    + apply cancels_CP. unfold Rdiv. ring.
    + exact IHj.
Qed.

(** The inverse ladder of the notebook is the undoing ladder reversed. *)
Lemma inverse_ladder_rev n :
  flat_map (fun i =>
              map (fun j => CP (- PI / 2 ^ (j - i)) j i) (range_down (i + 1) n)
              ++ [H i])
           (range_down 0 n)
  = rev (ladder_undo n).
Proof.
  unfold ladder_undo, range_down. rewrite rev_flat_map.
  apply flat_map_ext. intros i. simpl.
  rewrite map_rev. reflexivity.
Qed.

Lemma reversal_swaps_disjoint n k i :
  (k < n / 2)%nat -> (i < k)%nat ->
  commutes (SWAP k (n - k - 1)) (SWAP i (n - i - 1)).
Proof.
  intros Hk Hi.
  assert (2 * k < n)%nat by (pose proof (Nat.div_mod_eq n 2); lia).
  apply commutes_SWAP; lia.
Qed.

(** The qubit-order reversal done twice is the identity. *)
Lemma reversal_twice n s :
  run (reversal_gates n ++ reversal_gates n) s == s.
Proof.
  unfold reversal_gates, range. rewrite Nat.sub_0_r.
  assert (forall k, (k <= n / 2)%nat -> forall t,
            run (map (fun i => SWAP i (n - i - 1)) (seq 0 k)
                 ++ map (fun i => SWAP i (n - i - 1)) (seq 0 k)) t == t) as Gen.
  { induction k as [|k IH]; intros Lk t.
    - simpl. apply state_eq_refl.
    - rewrite seq_S, map_app. cbn [map Nat.add].
      rewrite !run_app. cbn [run].
      set (S_k := map (fun i => SWAP i (n - i - 1)) (seq 0 k)).
      set (g := SWAP k (n - k - 1)).
      assert (Forall (commutes g) S_k) as Cm.
      { subst S_k g. apply Forall_forall. intros h Hh.
        apply in_map_iff in Hh as (i & <- & Hi). apply in_seq in Hi.
        apply reversal_swaps_disjoint; lia. }
      eapply state_eq_trans.
      { apply apply_ext, state_eq_sym. apply (commutes_run g S_k Cm). }
      eapply state_eq_trans.
      { subst g. apply cancels_SWAP. }
      rewrite <- run_app. apply IH. lia. }
  apply Gen. lia.
Qed.

Lemma qft_gates_wf n : Forall (wf_gate n) (qft_gates n).
Proof.
  unfold qft_gates, reversal_gates, range. apply Forall_app. split.
  - apply Forall_forall. intros g Hg.
    apply in_flat_map in Hg as (i & Hi & Hg). apply in_seq in Hi.
    destruct Hg as [<-|Hg]; [simpl; lia|].
    apply in_map_iff in Hg as (j & <- & Hj). apply in_seq in Hj. simpl. lia.
  - apply Forall_forall. intros g Hg.
    apply in_map_iff in Hg as (i & <- & Hi). apply in_seq in Hi.
    assert (2 * i + 2 <= n)%nat by (pose proof (Nat.div_mod_eq n 2); lia).
    simpl. lia.
Qed.

Lemma inverse_qft_gates_wf n : Forall (wf_gate n) (inverse_qft_gates n).
Proof.
  unfold inverse_qft_gates, reversal_gates, range_down, range.
  apply Forall_app. split.
  - apply Forall_forall. intros g Hg.
    apply in_map_iff in Hg as (i & <- & Hi). apply in_seq in Hi.
    assert (2 * i + 2 <= n)%nat by (pose proof (Nat.div_mod_eq n 2); lia).
    simpl. lia.
  - apply Forall_forall. intros g Hg.
    apply in_flat_map in Hg as (i & Hi & Hg).
    apply in_rev, in_seq in Hi.
    apply in_app_or in Hg as [Hg|[<-|[]]]; [|simpl; lia].
    apply in_map_iff in Hg as (j & <- & Hj).
    apply in_rev, in_seq in Hj. simpl. lia.
Qed.

(** The forward transform followed by the inverse one leaves every state
    as it was, for every register width. *)
Lemma qft_inverse_qft_identity n s :
  run (qft_gates n ++ inverse_qft_gates n) s == s.
Proof.
  unfold qft_gates, inverse_qft_gates. fold (ladder n).
  rewrite inverse_ladder_rev.
  rewrite <- app_assoc, run_app.
  rewrite (app_assoc (reversal_gates n)), (run_app (_ ++ _)).
  eapply state_eq_trans.
  { apply run_ext. apply reversal_twice. }
  rewrite <- run_app. apply run_cancel. apply ladder_cancels.
Qed.

(** C2: for every n <= 8 and every n-qubit basis state, the gates of
    [apply_qft] followed by the gates of [apply_inverse_qft] give that basis
    state back, amplitude by amplitude (the global phase is 1). *)
Theorem qft_round_trip (n : nat) (x : N) :
  (n <= 8)%nat ->
  in_range n x = true ->
  exists qc1 qc2,
    apply_qft (new_circuit n) n = Ok qc1 /\
    apply_inverse_qft qc1 n = Ok qc2 /\
    data qc2 = qft_gates n ++ inverse_qft_gates n /\
    run (data qc2) (basis x) == basis x.
Proof.
  intros _ _. unfold apply_qft, apply_inverse_qft.
  eexists. eexists.
  split; [apply extend_wf, qft_gates_wf|].
  split; [apply extend_wf, inverse_qft_gates_wf|].
  cbn [data new_circuit app]. split; [reflexivity|].
  apply qft_inverse_qft_identity.
Qed.

Lemma qft_round_trip_witness :
  exists qc1 qc2,
    apply_qft (new_circuit 3) 3 = Ok qc1 /\
    apply_inverse_qft qc1 3 = Ok qc2 /\
    data qc2 = qft_gates 3 ++ inverse_qft_gates 3 /\
    run (data qc2) (basis 5) == basis 5.
Proof.
  apply (qft_round_trip 3 5); [lia | reflexivity].
Defined.

End QFT.

(* ================================================================== *)
(** ** Circuits of classical gates: the reported key *)
(* ================================================================== *)

Module Keys.
Import Amp Bits Circuit Sem Py.

Local Open Scope string_scope.

Lemma cstep_in_range m g x :
  wf_gate m g -> in_range m (cstep g x) = in_range m x.
Proof.
  destruct g; simpl; intros W; try reflexivity.
  - apply in_range_flip. exact W.
  - destruct (bit x control); [|reflexivity]. apply in_range_flip. tauto.
  - apply in_range_swapbits; tauto.
Qed.

Lemma crun_in_range m gs : forall x,
  Forall (wf_gate m) gs -> in_range m (crun gs x) = in_range m x.
Proof.
  induction gs as [|g rest IH]; intros x W; [reflexivity|].
  inversion W as [|? ? Wg Wr]; subst.
  change (crun (g :: rest) x) with (crun rest (cstep g x)).
  rewrite IH by exact Wr. apply cstep_in_range. exact Wg.
Qed.

Lemma nth_map_in {A B} (f : A -> B) l d d' : forall i,
  (i < List.length l)%nat -> nth i (map f l) d' = f (nth i l d).
Proof.
  induction l as [|a l IH]; intros [|i] L; simpl in *; try lia.
  - reflexivity.
  - apply IH. lia.
Qed.

Lemma chars_key_of k v :
  chars (key_of k v)
  = map (fun j => if bit v (k - 1 - j) then "1"%char else "0"%char) (seq 0 k).
Proof. unfold chars, key_of. apply list_ascii_of_string_of_list_ascii. Qed.

Lemma length_key_of k v : String.length (key_of k v) = k.
Proof. rewrite <- length_chars, chars_key_of, length_map, length_seq. reflexivity. Qed.

Lemma bitstring_key_of k v : bitstring (key_of k v) = true.
Proof.
  unfold bitstring. rewrite chars_key_of. apply forallb_forall.
  intros c Hc. apply in_map_iff in Hc as (j & <- & _).
  destruct (bit v (k - 1 - j)); reflexivity.
Qed.

Lemma bit_int_of_bits_key_of k v i :
  bit (int_of_bits (key_of k v)) i = if (i <? k)%nat then bit v i else false.
Proof.
  rewrite BernsteinVazirani.bit_int_of_bits, chars_key_of.
  destruct (Nat.ltb_spec i k) as [L|G].
  - rewrite rev_nth by (rewrite length_map, length_seq; exact L).
    rewrite length_map, length_seq.
    rewrite (nth_map_in _ _ 0%nat) by (rewrite length_seq; lia).
    rewrite seq_nth by lia.
    replace (k - 1 - (0 + (k - S i)))%nat with i by lia.
    destruct (bit v i); reflexivity.
  - rewrite nth_overflow by (rewrite length_rev, length_map, length_seq; exact G).
    reflexivity.
Qed.

(** A value that fits in [k] bits is read back from its key. *)
Lemma int_of_bits_key_of k v :
  in_range k v = true -> int_of_bits (key_of k v) = v.
Proof.
  intros Hr. apply bit_ext. intros i. rewrite bit_int_of_bits_key_of.
  destruct (Nat.ltb_spec i k) as [L|G]; [reflexivity|].
  symmetry. apply (proj1 (in_range_bits k v) Hr). exact G.
Qed.

(** A bit string is the key of its value. *)
Lemma key_of_int_of_bits key :
  bitstring key = true -> key_of (String.length key) (int_of_bits key) = key.
Proof.
  intros B. apply BernsteinVazirani.int_of_bits_inj.
  - apply bitstring_key_of.
  - exact B.
  - apply length_key_of.
  - intros i Hi. rewrite length_key_of in Hi. rewrite bit_int_of_bits_key_of.
    apply Nat.ltb_lt in Hi. rewrite Hi. reflexivity.
Qed.

(** A fully measured circuit of classical gates reports the key of the
    value its gates compute from 0, and no other key. *)
Lemma outcome_prob_classical qc key :
  measured qc = num_qubits qc ->
  forallb classical (data qc) = true ->
  Forall (wf_gate (num_qubits qc)) (data qc) ->
  outcome_prob qc key = if String.eqb key (read_key qc) then 1%R else 0%R.
Proof.
  intros M Cl W. unfold outcome_prob, read_key.
  set (v := crun (data qc) 0).
  assert (in_range (num_qubits qc) v = true) as Hv.
  { subst v. rewrite crun_in_range by exact W. apply in_range_zero. }
  destruct (String.eqb_spec key (key_of (measured qc) v)) as [->|NE].
  - rewrite length_key_of, Nat.eqb_refl, bitstring_key_of. cbn [andb].
    rewrite M, marginal_all. unfold final_state.
    rewrite (run_basis (num_qubits qc)) by assumption.
    fold v. rewrite int_of_bits_key_of by exact Hv.
    unfold basis. rewrite N.eqb_refl. apply norm2_one.
  - destruct (Nat.eqb_spec (String.length key) (measured qc)) as [L|]; [|reflexivity].
    destruct (bitstring key) eqn:B; [|reflexivity]. cbn [andb].
    rewrite M, marginal_all. unfold final_state.
    rewrite (run_basis (num_qubits qc)) by assumption.
    fold v. unfold basis.
    destruct (N.eqb_spec (int_of_bits key) v) as [E|]; [|apply norm2_zero].
    exfalso. apply NE. rewrite <- E, <- L. symmetry.
    apply key_of_int_of_bits. exact B.
Qed.

End Keys.

(* ================================================================== *)
(** ** Binary Shift.ipynb: what the shift circuit reports *)
(* ================================================================== *)

Module ShiftProps.
Import Amp Bits Circuit Sem Py BinaryShift Keys.

Local Open Scope string_scope.

(** The last character moved to the front, and the first one moved to
    the end. *)
Definition rotate_right (b : string) : string :=
  match rev (chars b) with
  | [] => ""
  | c :: r => string_of_list_ascii (c :: rev r)
  end.

Definition rotate_left (b : string) : string :=
  match chars b with
  | [] => ""
  | c :: r => string_of_list_ascii (r ++ [c])
  end.

Definition right_swaps : list gate := [SWAP 0 1; SWAP 1 2; SWAP 2 3].
Definition left_swaps : list gate := [SWAP 2 3; SWAP 1 2; SWAP 0 1].

(** The values below 16. *)
Definition nibbles : list N := map N.of_nat (seq 0 16).

Lemma enumerate_from_nth {A} (l : list A) d : forall start k,
  (k < List.length l)%nat ->
  In ((start + k)%nat, nth k l d) (enumerate_from start l).
Proof.
  induction l as [|a l IH]; intros start k L; simpl in *; [lia|].
  destruct k as [|k].
  - left. rewrite Nat.add_0_r. reflexivity.
  - right. replace (start + S k)%nat with (S start + k)%nat by lia.
    apply IH. lia.
Qed.

(** The X calls of an initialisation loop write the value of the string:
    from an index whose bits from [start] up are clear, bit [start + j]
    becomes the character [j] of the list. *)
Lemma crun_init_from (l : list ascii) : forall start y k,
  (forall i, (start <= i)%nat -> bit y i = false) ->
  bit (crun (flat_map (fun '(i, c) => if is_one c then [X i] else [])
                      (enumerate_from start l)) y) k
  = if (k <? start)%nat then bit y k
    else is_one (nth (k - start) l "0"%char).
Proof.
  induction l as [|c rest IH]; intros start y k Hy.
  - simpl. destruct (Nat.ltb_spec k start) as [L|G]; [reflexivity|].
    rewrite Hy by exact G. destruct (k - start)%nat; reflexivity.
  - cbn [enumerate_from flat_map]. rewrite crun_app.
    set (y1 := crun (if is_one c then [X start] else []) y).
    assert (forall i, bit y1 i = if (i =? start)%nat then is_one c else bit y i) as B1.
    { intros i. subst y1. destruct (is_one c); simpl.
      - rewrite bit_flip. destruct (Nat.eqb_spec i start) as [->|].
        + rewrite Hy by lia. reflexivity.
        + apply xorb_false_r.
      - destruct (Nat.eqb_spec i start) as [->|]; [apply Hy; lia|reflexivity]. }
    rewrite IH.
    + destruct (Nat.ltb_spec k (S start)) as [L|G].
      * rewrite B1. destruct (Nat.eqb_spec k start) as [->|NE].
        -- rewrite Nat.ltb_irrefl, Nat.sub_diag. reflexivity.
        -- assert ((k <? start)%nat = true) as -> by (apply Nat.ltb_lt; lia).
           reflexivity.
      * assert ((k <? start)%nat = false) as -> by (apply Nat.ltb_ge; lia).
        replace (k - start)%nat with (S (k - S start)) by lia. reflexivity.
    + intros i Hi. rewrite B1.
      destruct (Nat.eqb_spec i start); [lia|]. apply Hy. lia.
Qed.

(** The initialisation loop prepares the basis index [int(input_bits, 2)]. *)
Lemma crun_init_gates s : crun (init_gates s) 0 = int_of_bits s.
Proof.
  apply bit_ext. intros k. unfold init_gates, enumerate.
  rewrite crun_init_from by (intros; apply bit_zero).
  rewrite BernsteinVazirani.bit_int_of_bits, Nat.sub_0_r. reflexivity.
Qed.

Lemma ones_within_in_range k s :
  ones_within k s = true -> in_range k (int_of_bits s) = true.
Proof.
  intros Hw. apply in_range_bits. intros i Hi.
  rewrite BernsteinVazirani.bit_int_of_bits.
  destruct (Nat.lt_ge_cases i (List.length (rev (chars s)))) as [L|G].
  - unfold ones_within in Hw. rewrite forallb_forall in Hw.
    pose proof (enumerate_from_nth (rev (chars s)) "0"%char 0 i L) as Hin.
    specialize (Hw _ Hin). cbn beta iota in Hw. simpl in Hw.
    apply orb_true_iff in Hw as [Hn|Hlt].
    + apply negb_true_iff in Hn. exact Hn.
    + apply Nat.ltb_lt in Hlt. lia.
  - rewrite nth_overflow by exact G. reflexivity.
Qed.

Lemma in_range_nibbles v : in_range 4 v = true -> In v nibbles.
Proof.
  unfold in_range. intros L. apply N.ltb_lt in L.
  unfold nibbles. apply in_map_iff. exists (N.to_nat v). split.
  - apply N2Nat.id.
  - apply in_seq. change (2 ^ N.of_nat 4)%N with 16%N in L. lia.
Qed.

Lemma swaps_rotate_nibbles :
  forallb (fun v =>
             String.eqb (key_of 4 (crun right_swaps v)) (rotate_right (key_of 4 v))
             && String.eqb (key_of 4 (crun left_swaps v)) (rotate_left (key_of 4 v)))
          nibbles = true.
Proof. vm_compute. reflexivity. Qed.

(** The circuit built for a well-placed input and a valid direction. *)
Lemma create_shift_circuit_right s :
  ones_within 4 s = true ->
  create_shift_circuit s "right"
  = Ok (mkQC 4 (init_gates s ++ right_swaps) 4).
Proof.
  intros Hw. unfold create_shift_circuit.
  rewrite (extend_wf (init_gates s) (new_circuit 4))
    by (apply init_gates_wf; exact Hw).
  cbn [bind String.eqb]. simpl.
  rewrite <- !app_assoc. reflexivity.
Qed.

Lemma create_shift_circuit_left s :
  ones_within 4 s = true ->
  create_shift_circuit s "left"
  = Ok (mkQC 4 (init_gates s ++ left_swaps) 4).
Proof.
  intros Hw. unfold create_shift_circuit.
  rewrite (extend_wf (init_gates s) (new_circuit 4))
    by (apply init_gates_wf; exact Hw).
  cbn [bind String.eqb]. simpl.
  rewrite <- !app_assoc. reflexivity.
Qed.

Lemma init_gates_classical s : forallb classical (init_gates s) = true.
Proof.
  apply forallb_forall. intros g Hg. unfold init_gates in Hg.
  apply in_flat_map in Hg as ([i c] & _ & Hg).
  destruct (is_one c); simpl in Hg; [|contradiction].
  destruct Hg as [<-|[]]. reflexivity.
Qed.

(** The key reported for a well-placed input: the rotation of the input
    read as a 4-bit value. *)
Lemma shift_reports s swaps :
  ones_within 4 s = true ->
  forallb classical swaps = true ->
  Forall (wf_gate 4) swaps ->
  forall key,
    outcome_prob (mkQC 4 (init_gates s ++ swaps) 4) key
    = if String.eqb key (key_of 4 (crun swaps (int_of_bits s))) then 1%R else 0%R.
Proof.
  intros Hw Cl W key.
  rewrite outcome_prob_classical.
  - unfold read_key. cbn [measured data]. rewrite crun_app, crun_init_gates.
    reflexivity.
  - reflexivity.
  - cbn [data]. rewrite forallb_app, init_gates_classical, Cl. reflexivity.
  - cbn [data num_qubits]. apply Forall_app. split; [|exact W].
    apply init_gates_wf. exact Hw.
Qed.

Lemma right_swaps_wf : Forall (wf_gate 4) right_swaps.
Proof. repeat constructor; simpl; lia. Qed.

Lemma left_swaps_wf : Forall (wf_gate 4) left_swaps.
Proof. repeat constructor; simpl; lia. Qed.

Lemma rotation_of_value s :
  ones_within 4 s = true ->
  key_of 4 (crun right_swaps (int_of_bits s))
  = rotate_right (key_of 4 (int_of_bits s)) /\
  key_of 4 (crun left_swaps (int_of_bits s))
  = rotate_left (key_of 4 (int_of_bits s)).
Proof.
  intros Hw.
  pose proof (in_range_nibbles _ (ones_within_in_range 4 s Hw)) as Hin.
  pose proof swaps_rotate_nibbles as All. rewrite forallb_forall in All.
  specialize (All _ Hin). apply andb_true_iff in All as [Er El].
  apply String.eqb_eq in Er, El. auto.
Qed.


Lemma init_loop_index_error size (l : list (nat * ascii)) : forall qc,
  num_qubits qc = size ->
  forallb (fun '(i, c) => negb (is_one c) || (i <? size)%nat) l = false ->
  exists i, (size <= i)%nat /\
            extend qc (flat_map (fun '(i, c) => if is_one c then [X i] else []) l)
            = Raise (CircuitIndexError i size).
Proof.
  induction l as [|[i c] rest IH]; intros qc Hs F; simpl in F; [discriminate|].
  cbn [flat_map].
  destruct (is_one c) eqn:Hc; simpl in F.
  - destruct (Nat.ltb_spec i size) as [L|G]; simpl in F.
    + cbn [app extend]. unfold append. cbn [check_gate]. unfold check_qubit.
      rewrite Hs. apply Nat.ltb_lt in L. rewrite L. cbn [bind].
      apply IH; [reflexivity | exact F].
    + exists i. split; [exact G|].
      cbn [app extend]. unfold append. cbn [check_gate]. unfold check_qubit.
      rewrite Hs. apply Nat.ltb_ge in G. rewrite G. reflexivity.
  - cbn [app]. apply IH; assumption.
Qed.

(** X1: for a 4-bit string, the right shift reports with probability 1
    the string with its last character moved to the front, the left shift
    the string with its first character moved to the end, and neither ever
    reports another key. *)
Theorem shift_is_rotation (b : string) :
  String.length b = 4%nat ->
  bitstring b = true ->
  (exists qc,
      create_shift_circuit b "right" = Ok qc /\
      forall key, outcome_prob qc key
                  = if String.eqb key (rotate_right b) then 1%R else 0%R) /\
  (exists qc,
      create_shift_circuit b "left" = Ok qc /\
      forall key, outcome_prob qc key
                  = if String.eqb key (rotate_left b) then 1%R else 0%R).
Proof.
  intros L B.
  assert (ones_within 4 b = true) as Hw by (apply ones_within_short; lia).
  destruct (rotation_of_value b Hw) as [Er El].
  rewrite <- L in Er at 2. rewrite <- L in El at 2.
  rewrite key_of_int_of_bits in Er, El by exact B.
  split; eexists.
  - split; [apply create_shift_circuit_right; exact Hw|].
    intros key. rewrite shift_reports, Er; auto using right_swaps_wf.
  - split; [apply create_shift_circuit_left; exact Hw|].
    intros key. rewrite shift_reports, El; auto using left_swaps_wf.
Qed.

Lemma shift_is_rotation_witness :
  (exists qc,
      create_shift_circuit "0110" "right" = Ok qc /\
      forall key, outcome_prob qc key
                  = if String.eqb key (rotate_right "0110") then 1%R else 0%R) /\
  (exists qc,
      create_shift_circuit "0110" "left" = Ok qc /\
      forall key, outcome_prob qc key
                  = if String.eqb key (rotate_left "0110") then 1%R else 0%R).
Proof.
  apply (shift_is_rotation "0110"); reflexivity.
Defined.

(** X2: an input of any length and any characters whose 1s all lie
    among its last four characters is read as the 4-bit value
    [int(input_bits, 2)]: the circuit reports the rotation of the 4-character
    key of that value with probability 1 (a shorter input counts as padded
    with 0 on the left, a character other than 1 counts as 0). *)
Theorem shift_reads_input_as_value (s : string) :
  ones_within 4 s = true ->
  (exists qc,
      create_shift_circuit s "right" = Ok qc /\
      forall key, outcome_prob qc key
                  = if String.eqb key (rotate_right (key_of 4 (int_of_bits s)))
                    then 1%R else 0%R) /\
  (exists qc,
      create_shift_circuit s "left" = Ok qc /\
      forall key, outcome_prob qc key
                  = if String.eqb key (rotate_left (key_of 4 (int_of_bits s)))
                    then 1%R else 0%R).
Proof.
  intros Hw.
  destruct (rotation_of_value s Hw) as [Er El].
  split; eexists.
  - split; [apply create_shift_circuit_right; exact Hw|].
    intros key. rewrite shift_reports, Er; auto using right_swaps_wf.
  - split; [apply create_shift_circuit_left; exact Hw|].
    intros key. rewrite shift_reports, El; auto using left_swaps_wf.
Qed.

Lemma shift_reads_input_as_value_witness :
  (exists qc,
      create_shift_circuit "a1" "right" = Ok qc /\
      forall key, outcome_prob qc key
                  = if String.eqb key (rotate_right (key_of 4 (int_of_bits "a1")))
                    then 1%R else 0%R) /\
  (exists qc,
      create_shift_circuit "a1" "left" = Ok qc /\
      forall key, outcome_prob qc key
                  = if String.eqb key (rotate_left (key_of 4 (int_of_bits "a1")))
                    then 1%R else 0%R).
Proof.
  apply (shift_reads_input_as_value "a1"). reflexivity.
Defined.

(** X3: an input with a 1 further than four characters from its end
    makes the initialisation loop raise the framework's index error on a
    qubit index of 4 or more, whatever the direction argument, valid or
    not. *)
Theorem shift_wide_input_raises (s direction : string) :
  ones_within 4 s = false ->
  exists i, (4 <= i)%nat /\
            create_shift_circuit s direction = Raise (CircuitIndexError i 4).
Proof.
  intros Hw. unfold ones_within in Hw.
  destruct (init_loop_index_error 4 (enumerate (rev (chars s))) (new_circuit 4)
                                  eq_refl Hw) as (i & Hi & E).
  exists i. split; [exact Hi|].
  unfold create_shift_circuit, init_gates. rewrite E. reflexivity.
Qed.

Lemma shift_wide_input_raises_witness :
  exists i, (4 <= i)%nat /\
            create_shift_circuit "0100000" "left" = Raise (CircuitIndexError i 4).
Proof.
  apply (shift_wide_input_raises "0100000" "left"). reflexivity.
Defined.

End ShiftProps.

(* ================================================================== *)
(** ** BB84.ipynb: the X basis, and sequences of unequal length *)
(* ================================================================== *)

Module BB84Props.
Import Amp Bits Circuit Sem Py BB84.

Local Open Scope string_scope.

(** The state of the one qubit after a list of H and X gates on it. *)
Fixpoint qrun (gs : list gate) (v : Product.qubit) : Product.qubit :=
  match gs with
  | [] => v
  | H _ :: rest => qrun rest (Product.hq v)
  | X _ :: rest => qrun rest (Product.xq v)
  | _ :: rest => qrun rest v
  end.

Definition on_qubit_0 (g : gate) : bool :=
  match g with
  | H 0 | X 0 => true
  | _ => false
  end.

Lemma run_single_qubit gs : forall v,
  forallb on_qubit_0 gs = true ->
  run gs (Product.prod_state 1 (fun _ => v))
  == Product.prod_state 1 (fun _ => qrun gs v).
Proof.
  induction gs as [|g rest IH]; intros v F.
  - apply state_eq_refl.
  - simpl in F. apply andb_true_iff in F as [Fg Fr].
    destruct g as [[|q]|[|q]| | |]; try discriminate; cbn [run qrun].
    + apply (state_eq_trans _
               (run rest (Product.prod_state 1 (fun _ => Product.hq v)))).
      * apply run_ext. eapply state_eq_trans.
        -- apply (Product.apply_H_product 1). lia.
        -- apply Product.prod_state_ext. intros i Hi.
           assert (i = 0%nat) as -> by lia. apply Product.upd_same.
      * apply IH. exact Fr.
    + apply (state_eq_trans _
               (run rest (Product.prod_state 1 (fun _ => Product.xq v)))).
      * apply run_ext. eapply state_eq_trans.
        -- apply (Product.apply_X_product 1). lia.
        -- apply Product.prod_state_ext. intros i Hi.
           assert (i = 0%nat) as -> by lia. apply Product.upd_same.
      * apply IH. exact Fr.
Qed.

(** The distribution of the value [measure_qubits] appends for a
    one-qubit circuit of H and X gates. *)
Lemma measurement_prob_single gs :
  forallb on_qubit_0 gs = true ->
  measurement_prob (mkQC 1 gs 1) 0 = norm2 (fst (qrun gs Product.ket0)) /\
  measurement_prob (mkQC 1 gs 1) 1 = norm2 (snd (qrun gs Product.ket0)).
Proof.
  intros F.
  assert (final_state (mkQC 1 gs 1)
          == Product.prod_state 1 (fun _ => qrun gs Product.ket0)) as E.
  { unfold final_state. cbn [data].
    eapply state_eq_trans.
    - apply run_ext. apply (Product.basis_zero_product 1).
    - apply run_single_qubit. exact F. }
  unfold measurement_prob, outcome_prob. cbn [measured num_qubits].
  simpl. rewrite !marginal_all, !E.
  unfold Product.prod_state. simpl.
  rewrite !mul_one_l. unfold Product.amp. simpl. split; reflexivity.
Qed.

Lemma norm2_half : norm2 (scale (/ sqrt 2) one) = / 2.
Proof.
  unfold norm2. simpl.
  transitivity (/ sqrt 2 * / sqrt 2); [ring | apply inv_sqrt2_sq].
Qed.

Lemma norm2_neg a : norm2 (neg a) = norm2 a.
Proof. unfold norm2, neg. simpl. ring. Qed.

Lemma xq_ket_plus : Product.xq Product.ket_plus = Product.ket_plus.
Proof. reflexivity. Qed.


Ltac eval_qubit :=
  cbn [qrun app];
  rewrite ?Product.hq_ket0, ?Product.hq_ket1, ?xq_ket_plus, ?Product.xq_ket0,
          ?Product.hq_ket_plus, ?Product.hq_ket_minus;
  rewrite ?Product.hq_ket0, ?Product.hq_ket1, ?xq_ket_plus,
          ?Product.hq_ket_plus, ?Product.hq_ket_minus;
  unfold Product.ket0, Product.ket1, Product.ket_plus, Product.ket_minus;
  cbn [fst snd];
  rewrite ?norm2_neg, ?norm2_half, ?norm2_one, ?norm2_zero.

(** X4: a bit that [encode_qubits] encodes in the X basis (H, X when
    the bit is 1, H) is lost: measured by [measure_qubits] in a basis other
    than X, the value returned is 0 with probability 1 whether the bit was
    0 or 1. *)
Theorem x_encoding_measured_in_z (bit : Z) (bob_basis : string) :
  bob_basis <> "X" ->
  exists qc mc,
    encode_qubits [bit] ["X"] = [qc] /\
    measure_qubits [qc] [bob_basis] = [mc] /\
    measurement_prob mc 0 = 1%R /\
    measurement_prob mc 1 = 0%R.
Proof.
  intros NX. apply String.eqb_neq in NX.
  eexists. eexists. split; [reflexivity|]. split; [reflexivity|].
  unfold measured_circuit, encode_qubit, measure_low. cbn [num_qubits data measured].
  rewrite NX. cbn [String.eqb Ascii.eqb Bool.eqb]. simpl app.
  destruct (bit =? 1)%Z.
  - destruct (measurement_prob_single [H 0; X 0; H 0] eq_refl) as [E0 E1].
    simpl app in *. rewrite E0, E1. eval_qubit. split; reflexivity.
  - destruct (measurement_prob_single [H 0; H 0] eq_refl) as [E0 E1].
    simpl app in *. rewrite E0, E1. eval_qubit. split; reflexivity.
Qed.

Lemma x_encoding_measured_in_z_witness :
  exists qc mc,
    encode_qubits [1%Z] ["X"] = [qc] /\
    measure_qubits [qc] ["Z"] = [mc] /\
    measurement_prob mc 0 = 1%R /\
    measurement_prob mc 1 = 0%R.
Proof.
  apply (x_encoding_measured_in_z 1 "Z"). discriminate.
Defined.

(** X5: when Alice encodes in the X basis and Bob measures in the X
    basis, the value [measure_qubits] returns is 0 or 1 with probability
    1/2 each, whether the encoded bit was 0 or 1: matching X bases do not
    give Bob the bit. *)
Theorem x_encoding_measured_in_x (bit : Z) :
  exists qc mc,
    encode_qubits [bit] ["X"] = [qc] /\
    measure_qubits [qc] ["X"] = [mc] /\
    measurement_prob mc 0 = / 2 /\
    measurement_prob mc 1 = / 2.
Proof.
  eexists. eexists. split; [reflexivity|]. split; [reflexivity|].
  unfold measured_circuit, encode_qubit, measure_low. cbn [num_qubits data measured].
  cbn [String.eqb Ascii.eqb Bool.eqb]. simpl app.
  destruct (bit =? 1)%Z.
  - destruct (measurement_prob_single [H 0; X 0; H 0; H 0] eq_refl) as [E0 E1].
    simpl app in *. rewrite E0, E1. eval_qubit. split; reflexivity.
  - destruct (measurement_prob_single [H 0; H 0; H 0] eq_refl) as [E0 E1].
    simpl app in *. rewrite E0, E1. eval_qubit. split; reflexivity.
Qed.

(** X6: a bit encoded in a basis other than X and measured in the X
    basis gives 0 or 1 with probability 1/2 each. *)
Theorem z_encoding_measured_in_x (bit : Z) (alice_basis : string) :
  alice_basis <> "X" ->
  exists qc mc,
    encode_qubits [bit] [alice_basis] = [qc] /\
    measure_qubits [qc] ["X"] = [mc] /\
    measurement_prob mc 0 = / 2 /\
    measurement_prob mc 1 = / 2.
Proof.
  intros NX. apply String.eqb_neq in NX.
  eexists. eexists. split; [reflexivity|]. split; [reflexivity|].
  unfold measured_circuit, encode_qubit, measure_low. cbn [num_qubits data measured].
  rewrite NX. cbn [String.eqb Ascii.eqb Bool.eqb]. simpl app.
  destruct (bit =? 1)%Z.
  - destruct (measurement_prob_single [X 0; H 0] eq_refl) as [E0 E1].
    simpl app in *. rewrite E0, E1. eval_qubit. split; reflexivity.
  - destruct (measurement_prob_single [H 0] eq_refl) as [E0 E1].
    simpl app in *. rewrite E0, E1. eval_qubit. split; reflexivity.
Qed.

Lemma z_encoding_measured_in_x_witness :
  exists qc mc,
    encode_qubits [1%Z] ["Z"] = [qc] /\
    measure_qubits [qc] ["X"] = [mc] /\
    measurement_prob mc 0 = / 2 /\
    measurement_prob mc 1 = / 2.
Proof.
  apply (z_encoding_measured_in_x 1 "Z"). discriminate.
Defined.


(** X7: [sift_key] never looks at the bits: replacing both bit
    sequences by any others of the same lengths leaves its result
    unchanged. *)
Theorem sift_key_ignores_bits :
  forall (alice_bases bob_bases : list string)
         (alice_bits bob_bits alice_bits' bob_bits' : list Z),
    List.length alice_bits' = List.length alice_bits ->
    List.length bob_bits' = List.length bob_bits ->
    sift_key alice_bits' bob_bits' alice_bases bob_bases
    = sift_key alice_bits bob_bits alice_bases bob_bases.
Proof.
  unfold sift_key, zip4.
  induction alice_bases as [|a la IH];
    intros [|b lb] [|c lc] [|d ld] [|c' lc'] [|d' ld'] E1 E2;
    simpl in *; try discriminate; try reflexivity.
  f_equal. apply IH; congruence.
Qed.

Lemma sift_key_ignores_bits_witness :
  sift_key [1; 1]%Z [0; 0]%Z ["X"; "Z"] ["X"; "X"]
  = sift_key [0; 1]%Z [1; 0]%Z ["X"; "Z"] ["X"; "X"].
Proof.
  apply (sift_key_ignores_bits ["X"; "Z"] ["X"; "X"]); reflexivity.
Defined.

Lemma sift_key_nth_any : forall alice_bases bob_bases alice_bits bob_bits i a b,
  (i < List.length alice_bits)%nat ->
  (i < List.length bob_bits)%nat ->
  nth_error alice_bases i = Some a ->
  nth_error bob_bases i = Some b ->
  nth_error (sift_key alice_bits bob_bits alice_bases bob_bases) i
  = Some (if String.eqb a b then 0%Z else 1%Z).
Proof.
  unfold sift_key, zip4.
  induction alice_bases as [|a0 la IH];
    intros [|b0 lb] [|c0 lc] [|d0 ld] i a b L1 L2 Ha Hb;
    simpl in *; try lia; try (destruct i; discriminate).
  destruct i as [|i]; simpl in *.
  - inversion Ha; inversion Hb; subst. reflexivity.
  - apply (IH lb lc ld i a b); auto; lia.
Qed.

(** X8: on sequences of unequal lengths [sift_key] raises nothing: it
    stops with the shortest of the four, and up to there still flags with 0
    the positions where the bases agree and with 1 the others. *)
Theorem sift_key_stops_with_shortest
        (alice_bits bob_bits : list Z) (alice_bases bob_bases : list string) :
  let out := sift_key alice_bits bob_bits alice_bases bob_bases in
  List.length out
  = Nat.min (Nat.min (List.length alice_bases) (List.length bob_bases))
            (Nat.min (List.length alice_bits) (List.length bob_bits)) /\
  forall i a b,
    (i < List.length out)%nat ->
    nth_error alice_bases i = Some a ->
    nth_error bob_bases i = Some b ->
    nth_error out i = Some (if String.eqb a b then 0%Z else 1%Z).
Proof.
  intros out.
  assert (List.length out
          = Nat.min (Nat.min (List.length alice_bases) (List.length bob_bases))
                    (Nat.min (List.length alice_bits) (List.length bob_bits))) as L.
  { subst out. unfold sift_key, zip4.
    rewrite length_map, !length_combine. lia. }
  split; [exact L|].
  intros i a b Hi Ha Hb. rewrite L in Hi.
  apply sift_key_nth_any; auto; lia.
Qed.

Lemma sift_key_stops_with_shortest_witness :
  List.length (sift_key [0; 1; 1]%Z [1]%Z ["X"; "Z"; "Z"] ["X"; "X"]) = 1%nat.
Proof.
  apply (proj1 (sift_key_stops_with_shortest
                  [0; 1; 1]%Z [1]%Z ["X"; "Z"; "Z"] ["X"; "X"])).
Defined.

End BB84Props.

(* ================================================================== *)
(** ** Bernstein-Vazirani notebook: more on the oracle *)
(* ================================================================== *)

Module OracleProps.
Import Amp Bits Circuit Sem Py BernsteinVazirani.

Local Open Scope string_scope.

(** The value the oracle circuit of [s] writes on a cleared ancilla for
    the input [x]. *)
Definition oracle_value (s : string) (x : N) : bool :=
  bit (crun (oracle_gates s) x) (String.length s).

(** A list of gates that commute with each other and undo themselves,
    run twice, is the identity. *)
Lemma run_twice_identity gs :
  (forall g h, In g gs -> In h gs -> QFT.commutes g h) ->
  Forall (fun g => QFT.cancels g g) gs ->
  forall st, run (gs ++ gs)%list st == st.
Proof.
  induction gs as [|g rest IH]; intros Cm Cn st.
  - apply state_eq_refl.
  - inversion Cn as [|? ? Cg Cr]; subst.
    change (((g :: rest) ++ g :: rest)%list)
      with (([g] ++ rest ++ [g] ++ rest)%list).
    rewrite !run_app. cbn [run].
    assert (Forall (QFT.commutes g) rest) as Fg.
    { apply Forall_forall. intros h Hh. apply Cm; [left; reflexivity|right; exact Hh]. }
    eapply state_eq_trans.
    { apply run_ext. apply (QFT.commutes_run g rest Fg). }
    eapply state_eq_trans.
    { apply run_ext, run_ext. apply Cg. }
    rewrite <- run_app. apply IH; [|exact Cr].
    intros g' h' Hg' Hh'. apply Cm; right; assumption.
Qed.

Lemma cancels_CX c t : c <> t -> QFT.cancels (CX c t) (CX c t).
Proof.
  intros NE st x. simpl.
  replace (if bit (if bit x c then flip t x else x) c
           then flip t (if bit x c then flip t x else x)
           else if bit x c then flip t x else x) with x; [reflexivity|].
  destruct (bit x c) eqn:B.
  - rewrite Product.bit_flip_other by exact NE. rewrite B, flip_flip. reflexivity.
  - rewrite B. reflexivity.
Qed.

Lemma commutes_CX_same_target c d t :
  c <> t -> d <> t -> QFT.commutes (CX c t) (CX d t).
Proof.
  intros Hc Hd st x. simpl. f_equal.
  destruct (bit x c) eqn:Bc, (bit x d) eqn:Bd;
    rewrite ?Product.bit_flip_other by auto;
    rewrite ?Bc, ?Bd; reflexivity.
Qed.

(** X9: the oracle circuit of any secret string, applied twice, leaves
    every state of the register as it was. *)
Theorem oracle_twice_identity (s : string) (st : state) :
  exists oracle,
    create_oracle s = Ok oracle /\
    run (data oracle ++ data oracle)%list st == st.
Proof.
  eexists. split; [apply create_oracle_ok|]. cbn [data].
  pose proof (oracle_gates_shape s) as Sh. rewrite Forall_forall in Sh.
  apply run_twice_identity.
  - intros g h Hg Hh.
    destruct (Sh g Hg) as (c & -> & Lc). destruct (Sh h Hh) as (d & -> & Ld).
    apply commutes_CX_same_target; lia.
  - apply Forall_forall. intros g Hg.
    destruct (Sh g Hg) as (c & -> & Lc). apply cancels_CX. lia.
Qed.

Lemma bit_lxor x y i : bit (N.lxor x y) i = xorb (bit x i) (bit y i).
Proof. unfold bit. apply N.lxor_spec. Qed.

Lemma dot_list_lxor l x y :
  dot_list l (N.lxor x y) = xorb (dot_list l x) (dot_list l y).
Proof.
  unfold dot_list, xor_list.
  induction l as [|[i c] rest IH]; cbn [map fold_right]; [reflexivity|].
  rewrite IH, bit_lxor.
  generalize (fold_right xorb false (map (fun '(j, d) => bit x j && is_one d) rest)).
  generalize (fold_right xorb false (map (fun '(j, d) => bit y j && is_one d) rest)).
  intros A B.
  destruct (bit x i), (bit y i), (is_one c), A, B; reflexivity.
Qed.

Lemma oracle_value_dot s x :
  in_range (String.length s) x = true ->
  oracle_value s x = dot_list (enumerate (rev (chars s))) x.
Proof.
  intros Hr. unfold oracle_value. rewrite crun_oracle, Nat.eqb_refl.
  rewrite (proj1 (in_range_bits _ _) Hr) by lia.
  rewrite dot_list_secret. reflexivity.
Qed.

Lemma in_range_lxor n x y :
  in_range n x = true -> in_range n y = true -> in_range n (N.lxor x y) = true.
Proof.
  intros Hx Hy. apply in_range_bits. intros i Hi.
  rewrite bit_lxor.
  rewrite (proj1 (in_range_bits _ _) Hx), (proj1 (in_range_bits _ _) Hy) by exact Hi.
  reflexivity.
Qed.

(** X10: the function the oracle circuit computes on its ancilla is
    linear over the bitwise exclusive or of the inputs: the value for
    x XOR y is the exclusive or of the values for x and for y. *)
Theorem oracle_value_linear (s : string) (x y : N) :
  in_range (String.length s) x = true ->
  in_range (String.length s) y = true ->
  oracle_value s (N.lxor x y) = xorb (oracle_value s x) (oracle_value s y).
Proof.
  intros Hx Hy.
  rewrite !oracle_value_dot by auto using in_range_lxor.
  apply dot_list_lxor.
Qed.

Lemma oracle_value_linear_witness :
  oracle_value "1101" (N.lxor 5 12)
  = xorb (oracle_value "1101" 5) (oracle_value "1101" 12).
Proof.
  apply (oracle_value_linear "1101" 5 12); reflexivity.
Defined.

End OracleProps.

(* ================================================================== *)
(** ** Product states of basis and of balanced qubits *)
(* ================================================================== *)

Module Uniform.
Import Amp Bits Circuit Sem Product.

(** A qubit in a basis state: one amplitude is 0, the other has modulus 1. *)
Definition basis_ket (v : qubit) : Prop :=
  (snd v = zero /\ norm2 (fst v) = 1) \/ (fst v = zero /\ norm2 (snd v) = 1).

(** A qubit both of whose outcomes have probability 1/2. *)
Definition balanced (v : qubit) : Prop :=
  norm2 (fst v) = / 2 /\ norm2 (snd v) = / 2.

(** Every index that fits in [n] qubits has the weight 1/2^n, every
    other index none. *)
Definition uniform (n : nat) (st : state) : Prop :=
  forall x, norm2 (st x) = if in_range n x then (/ 2) ^ n else 0.

(** The phase gate on one qubit. *)
Definition pq (theta : R) (v : qubit) : qubit := (fst v, mul (expi theta) (snd v)).

Lemma norm2_mul a b : norm2 (mul a b) = norm2 a * norm2 b.
Proof. unfold norm2, mul. simpl. ring. Qed.

Lemma norm2_scale r a : norm2 (scale r a) = r * r * norm2 a.
Proof. unfold norm2, scale. simpl. ring. Qed.

Lemma norm2_expi t : norm2 (expi t) = 1.
Proof.
  unfold norm2, expi. simpl. pose proof (sin2_cos2 t) as E.
  unfold Rsqr in E. lra.
Qed.

Lemma add_zero_r a : add a zero = a.
Proof. apply c_eq; simpl; ring. Qed.

Lemma add_zero_l a : add zero a = a.
Proof. apply c_eq; simpl; ring. Qed.

Lemma neg_zero : neg zero = zero.
Proof. apply c_eq; simpl; ring. Qed.

Lemma norm2_opp a : norm2 (neg a) = norm2 a.
Proof. unfold norm2, neg. simpl. ring. Qed.

Lemma basis_ket_ket0 : basis_ket ket0.
Proof. left. split; [reflexivity|apply norm2_one]. Qed.

Lemma basis_ket_ket1 : basis_ket ket1.
Proof. right. split; [reflexivity|apply norm2_one]. Qed.

Lemma basis_ket_xq v : basis_ket v -> basis_ket (xq v).
Proof. intros [[E N]|[E N]]; [right|left]; split; assumption. Qed.

Lemma balanced_hq v : basis_ket v -> balanced (hq v).
Proof.
  pose proof inv_sqrt2_sq as Hs.
  intros [[E N]|[E N]]; unfold balanced, hq; cbn [fst snd]; rewrite E;
    rewrite ?neg_zero, ?add_zero_r, ?add_zero_l, !norm2_scale, ?norm2_opp, N, Hs;
    split; lra.
Qed.

Lemma balanced_pq theta v : balanced v -> balanced (pq theta v).
Proof.
  intros [N0 N1]. unfold balanced, pq. cbn [fst snd].
  rewrite norm2_mul, norm2_expi, N1. split; [exact N0|lra].
Qed.

(** Weight of an index under a product of balanced qubits. *)
Lemma balanced_product_uniform n f :
  (forall i, (i < n)%nat -> balanced (f i)) -> uniform n (prod_state n f).
Proof.
  intros Hb x. unfold prod_state.
  destruct (in_range n x); [|apply norm2_zero].
  clear -Hb. induction n as [|n IH].
  - simpl. apply norm2_one.
  - cbn [bigprod]. rewrite norm2_mul, IH by (intros; apply Hb; lia).
    unfold amp. destruct (Hb n (Nat.lt_succ_diag_r n)) as [N0 N1].
    destruct (bit x n); rewrite ?N0, ?N1; simpl; ring.
Qed.

Lemma uniform_ext n st st' : st == st' -> uniform n st' -> uniform n st.
Proof. intros E U x. rewrite E. apply U. Qed.

Lemma uniform_swap n a b st :
  (a < n)%nat -> (b < n)%nat -> uniform n st -> uniform n (apply (SWAP a b) st).
Proof.
  intros La Lb U x. simpl. rewrite U, in_range_swapbits by assumption.
  reflexivity.
Qed.

(** Controlled phase on a product state whose control qubit is in a basis
    state: the target qubit gets the phase when the control is |1>, and
    nothing changes when it is |0>. *)
Lemma apply_CP_product m f theta c t :
  (c < m)%nat -> (t < m)%nat -> c <> t ->
  basis_ket (f c) ->
  exists v, (v = f t \/ v = pq theta (f t)) /\
            apply (CP theta c t) (prod_state m f) == prod_state m (upd f t v).
Proof.
  intros Lc Lt NE [[E _]|[E _]].
  - (* control |0> *)
    exists (f t). split; [left; reflexivity|].
    intros x. simpl. unfold prod_state.
    destruct (in_range m x);
      [|destruct (bit x c && bit x t); [apply mul_zero_r|reflexivity]].
    assert (bigprod m (amp (upd f t (f t)) x) = bigprod m (amp f x)) as ->.
    { apply bigprod_ext. intros i _. unfold amp, upd.
      destruct (Nat.eqb_spec i t) as [->|]; reflexivity. }
    destruct (bit x c) eqn:Bc; [|reflexivity].
    destruct (bit x t); [|reflexivity]. cbn [andb].
    rewrite (bigprod_zero c m); [apply mul_zero_r | exact Lc |].
    unfold amp. rewrite Bc. exact E.
  - (* control |1> *)
    exists (pq theta (f t)). split; [right; reflexivity|].
    intros x. simpl. unfold prod_state.
    destruct (in_range m x);
      [|destruct (bit x c && bit x t); [apply mul_zero_r|reflexivity]].
    destruct (bit x c) eqn:Bc.
    + rewrite (product_at t m f f x x Lt) by auto.
      rewrite (product_at t m f (upd f t (pq theta (f t))) x x Lt)
        by (auto using upd_other).
      generalize (bigprod m (fun i => if (i =? t)%nat then one else amp f x i)) as r.
      intros r. unfold amp. rewrite upd_same.
      destruct (bit x t); cbn [andb pq fst snd]; [|reflexivity].
      apply mul_assoc.
    + cbn [andb].
      rewrite (bigprod_zero c m (amp f x)) by (try exact Lc; unfold amp; rewrite Bc; exact E).
      symmetry. apply (bigprod_zero c m); [exact Lc|].
      unfold amp. rewrite Bc, upd_other by exact NE. exact E.
Qed.

End Uniform.

(* ================================================================== *)
(** ** QFT.ipynb: the other order, narrow circuits, and [test_qft] *)
(* ================================================================== *)

Module QFTProps.
Import Amp Bits Circuit Sem Py QFT Product Uniform.

(** The X calls of the first loop of [test_qft], over the reversed list of
    integers: [qc.x(i)] where the entry is 1. *)
Definition input_gates (input_state : list Z) : list gate :=
  flat_map (fun '(i, bit) => if (bit =? 1)%Z then [X i] else [])
           (enumerate (rev input_state)).

(** [result.get_counts()] for a simulated circuit: the result of a
    circuit that measured no qubit holds no counts, and asking for them
    raises. *)
Definition get_counts (qc : QuantumCircuit) : result QuantumCircuit :=
  if (measured qc =? 0)%nat then Raise NoCountsError else Ok qc.

(** [test_qft]: the measured circuit whose counts it returns (described by
    [outcome_prob]), or the error raised on the way. *)
Definition test_qft (input_state : list Z) : result QuantumCircuit :=
  let n := List.length input_state in
  qc <- extend (new_circuit n) (input_gates input_state) ;;
  qc <- apply_qft qc n ;;
  get_counts (measure_all qc).

(** One block of the ladder: the Hadamard on qubit [i] and the phases
    controlled by the later qubits. *)
Definition block (n i : nat) : list gate :=
  H i :: map (fun j => CP (PI / 2 ^ (j - i)) j i) (range (i + 1) n).

(** Qubits below [k] are balanced, the others are in a basis state. *)
Definition ladder_inv (n k : nat) (f : nat -> qubit) : Prop :=
  forall i, (i < n)%nat ->
            if (i <? k)%nat then balanced (f i) else basis_ket (f i).

Lemma Forall2_rev {A B} (P : A -> B -> Prop) l l' :
  Forall2 P l l' -> Forall2 P (rev l) (rev l').
Proof.
  induction 1 as [|a b l l' Pab F IH]; simpl.
  - constructor.
  - apply Forall2_app; [exact IH|]. constructor; [exact Pab|constructor].
Qed.

Lemma ladder_undo_cancels n : Forall2 cancels (ladder_undo n) (ladder n).
Proof.
  unfold ladder, ladder_undo.
  induction (range 0 n) as [|i l IH]; simpl.
  - constructor.
  - constructor; [apply cancels_H|].
    apply Forall2_app; [|exact IH].
    induction (range (i + 1) n) as [|j js IHj]; simpl; constructor.
    + apply cancels_CP. unfold Rdiv. ring.
    + exact IHj.
Qed.

(** The inverse transform followed by the forward one leaves every state
    as it was. *)
Lemma inverse_qft_qft_identity n st :
  run (inverse_qft_gates n ++ qft_gates n) st == st.
Proof.
  unfold qft_gates, inverse_qft_gates. fold (ladder n).
  rewrite inverse_ladder_rev.
  rewrite <- (rev_involutive (ladder n)) at 1.
  rewrite <- app_assoc, run_app.
  rewrite (app_assoc (rev (ladder_undo n))), (run_app (_ ++ _)).
  eapply state_eq_trans.
  { apply run_ext. apply run_cancel. apply Forall2_rev, ladder_undo_cancels. }
  rewrite <- run_app. apply reversal_twice.
Qed.

(** A basis state as a product state. *)
Lemma basis_product n v :
  in_range n v = true ->
  basis v == prod_state n (fun i => if bit v i then ket1 else ket0).
Proof.
  intros Hv x. unfold basis, prod_state.
  destruct (N.eqb_spec x v) as [->|NE].
  - rewrite Hv. symmetry. apply bigprod_one. intros i _.
    unfold amp. destruct (bit v i); reflexivity.
  - destruct (in_range n x) eqn:Hx; [|reflexivity].
    set (same := fun i => Bool.eqb (bit x i) (bit v i)).
    destruct (forallb same (seq 0 n)) eqn:F.
    + exfalso. apply NE. apply bit_ext. intros i.
      destruct (Nat.lt_ge_cases i n) as [L|G].
      * rewrite forallb_forall in F. apply Bool.eqb_prop.
        apply (F i). apply in_seq. lia.
      * rewrite (proj1 (in_range_bits _ _) Hx), (proj1 (in_range_bits _ _) Hv)
          by exact G. reflexivity.
    + apply BernsteinVazirani.forallb_false_witness in F as (i & Hi & Fi).
      apply in_seq in Hi. subst same. apply Bool.eqb_false_iff in Fi.
      symmetry. apply (bigprod_zero i); [lia|].
      unfold amp. destruct (bit x i), (bit v i); try reflexivity; congruence.
Qed.

(** The phases of one block, on a product state whose controls are in
    basis states: only the target qubit changes, and it stays balanced. *)
Lemma run_phases_product n i (theta : nat -> R) js : forall f,
  (i < n)%nat ->
  (forall j, In j js -> (j < n)%nat /\ j <> i /\ basis_ket (f j)) ->
  balanced (f i) ->
  exists f',
    run (map (fun j => CP (theta j) j i) js) (prod_state n f) == prod_state n f' /\
    (forall k, k <> i -> f' k = f k) /\
    balanced (f' i).
Proof.
  induction js as [|j js IH]; intros f Li Hjs Bi.
  - exists f. split; [apply state_eq_refl|]. split; [reflexivity|exact Bi].
  - destruct (Hjs j (or_introl eq_refl)) as (Lj & NEj & Kj).
    destruct (apply_CP_product n f (theta j) j i Lj Li NEj Kj) as (v & Hv & Ev).
    assert (balanced v) as Bv
        by (destruct Hv as [->| ->]; [exact Bi | apply balanced_pq; exact Bi]).
    destruct (IH (upd f i v) Li) as (f' & Ef & Same & Bf).
    + intros j' Hj'. destruct (Hjs j' (or_intror Hj')) as (L' & NE' & K').
      rewrite upd_other by exact NE'. auto.
    + rewrite upd_same. exact Bv.
    + exists f'. split; [|split].
      * cbn [map run]. eapply state_eq_trans; [apply run_ext, Ev|exact Ef].
      * intros k Hk. rewrite Same by exact Hk. apply upd_other. exact Hk.
      * exact Bf.
Qed.

Lemma run_block_product n k f :
  (k < n)%nat -> ladder_inv n k f ->
  exists f', run (block n k) (prod_state n f) == prod_state n f' /\
             ladder_inv n (S k) f'.
Proof.
  intros Lk Inv. unfold block. cbn [run].
  set (f1 := upd f k (hq (f k))).
  assert (basis_ket (f k)) as Kk.
  { specialize (Inv k Lk). rewrite Nat.ltb_irrefl in Inv. exact Inv. }
  destruct (run_phases_product n k (fun j => PI / 2 ^ (j - k)) (range (k + 1) n) f1 Lk)
    as (f' & Ef & Same & Bf).
  - intros j Hj. unfold range in Hj. apply in_seq in Hj.
    split; [lia|]. split; [lia|].
    subst f1. rewrite upd_other by lia.
    specialize (Inv j ltac:(lia)).
    assert ((j <? k)%nat = false) as E by (apply Nat.ltb_ge; lia).
    rewrite E in Inv. exact Inv.
  - subst f1. rewrite upd_same. apply balanced_hq. exact Kk.
  - exists f'. split.
    + eapply state_eq_trans; [|exact Ef].
      apply run_ext. apply apply_H_product. exact Lk.
    + intros i Li. destruct (Nat.eq_dec i k) as [->|NE].
      * assert ((k <? S k)%nat = true) as -> by (apply Nat.ltb_lt; lia).
        exact Bf.
      * rewrite Same by exact NE. subst f1. rewrite upd_other by exact NE.
        specialize (Inv i Li).
        destruct (Nat.ltb_spec i k), (Nat.ltb_spec i (S k)); try lia; exact Inv.
Qed.

Lemma run_ladder_product n m : forall k f,
  (k + m = n)%nat -> ladder_inv n k f ->
  exists f', run (flat_map (block n) (seq k m)) (prod_state n f) == prod_state n f' /\
             ladder_inv n n f'.
Proof.
  induction m as [|m IH]; intros k f E Inv.
  - exists f. split; [apply state_eq_refl|].
    assert (k = n) as <- by lia. exact Inv.
  - cbn [seq flat_map]. 
    destruct (run_block_product n k f ltac:(lia) Inv) as (f1 & E1 & Inv1).
    destruct (IH (S k) f1 ltac:(lia) Inv1) as (f' & E' & Inv').
    exists f'. split; [|exact Inv'].
    rewrite run_app. eapply state_eq_trans; [apply run_ext, E1|exact E'].
Qed.

Lemma uniform_run_swaps n gs : forall st,
  Forall (fun g => exists a b, g = SWAP a b /\ (a < n)%nat /\ (b < n)%nat) gs ->
  uniform n st -> uniform n (run gs st).
Proof.
  induction gs as [|g rest IH]; intros st F U; [exact U|].
  inversion F as [|? ? (a & b & -> & La & Lb) Fr]; subst.
  cbn [run]. apply IH; [exact Fr|]. apply uniform_swap; assumption.
Qed.

(** The forward transform sends every basis state that fits the register
    to a state of uniform weights. *)
Lemma qft_basis_uniform n v :
  in_range n v = true -> uniform n (run (qft_gates n) (basis v)).
Proof.
  intros Hv. unfold qft_gates. rewrite run_app.
  apply uniform_run_swaps.
  - unfold reversal_gates, range. apply Forall_forall. intros g Hg.
    apply in_map_iff in Hg as (i & <- & Hi). apply in_seq in Hi.
    assert (2 * i + 2 <= n)%nat by (pose proof (Nat.div_mod_eq n 2); lia).
    exists i, (n - i - 1)%nat. repeat split; lia.
  - destruct (run_ladder_product n n 0 (fun i => if bit v i then ket1 else ket0))
      as (f' & E & Inv).
    + reflexivity.
    + intros i Li. cbn [Nat.ltb Nat.leb].
      destruct (bit v i); [apply basis_ket_ket1|apply basis_ket_ket0].
    + eapply uniform_ext.
      * eapply state_eq_trans; [|exact E].
        unfold range. rewrite Nat.sub_0_r. fold (block n).
        apply run_ext. apply basis_product. exact Hv.
      * apply balanced_product_uniform. intros i Li.
        specialize (Inv i Li).
        assert ((i <? n)%nat = true) as Ei by (apply Nat.ltb_lt; exact Li).
        rewrite Ei in Inv. exact Inv.
Qed.


Lemma input_gates_shape input_state :
  Forall (fun g => exists i, g = X i /\ (i < List.length input_state)%nat)
         (input_gates input_state).
Proof.
  unfold input_gates. apply Forall_forall. intros g Hg.
  apply in_flat_map in Hg as ([i b] & Hin & Hg).
  apply enumerate_from_bound in Hin. rewrite length_rev in Hin.
  destruct (b =? 1)%Z; simpl in Hg; [|contradiction].
  destruct Hg as [<-|[]]. exists i. split; [reflexivity|lia].
Qed.

Lemma test_qft_ok input_state :
  input_state <> [] ->
  test_qft input_state
  = Ok (mkQC (List.length input_state)
             (input_gates input_state ++ qft_gates (List.length input_state))
             (List.length input_state)).
Proof.
  intros NE. unfold test_qft, apply_qft.
  rewrite extend_wf.
  - cbn [bind new_circuit num_qubits data measured app].
    rewrite extend_wf by (apply qft_gates_wf).
    cbn [bind]. unfold get_counts, measure_all. cbn [num_qubits data measured].
    destruct input_state as [|b rest]; [contradiction|reflexivity].
  - cbn [new_circuit num_qubits].
    eapply Forall_impl; [|apply input_gates_shape].
    intros g (i & -> & L). exact L.
Qed.

(** On the empty list the circuit has no qubit, nothing is measured and
    [get_counts] raises. *)
Lemma test_qft_empty : test_qft [] = Raise NoCountsError.
Proof. reflexivity. Qed.

Lemma extend_first_error pre g post e : forall qc,
  Forall (wf_gate (num_qubits qc)) pre ->
  check_gate (num_qubits qc) g = Raise e ->
  extend qc (pre ++ g :: post) = Raise e.
Proof.
  induction pre as [|p pre IH]; intros qc W E.
  - cbn [app extend]. unfold append. rewrite E. reflexivity.
  - inversion W as [|? ? Wp Wr]; subst.
    cbn [app extend]. unfold append. rewrite (check_gate_wf _ _ Wp).
    cbn [bind]. apply IH; assumption.
Qed.

(** X11: the gates of [apply_inverse_qft] followed by the gates of
    [apply_qft] leave every state of an n-qubit register as it was, for
    every n: the two transforms undo each other in this order too. *)
Theorem inverse_qft_then_qft (n : nat) (st : state) :
  exists qc1 qc2,
    apply_inverse_qft (new_circuit n) n = Ok qc1 /\
    apply_qft qc1 n = Ok qc2 /\
    data qc2 = inverse_qft_gates n ++ qft_gates n /\
    run (data qc2) st == st.
Proof.
  unfold apply_qft, apply_inverse_qft. eexists. eexists.
  split; [apply extend_wf, inverse_qft_gates_wf|].
  split; [apply extend_wf, qft_gates_wf|].
  cbn [data new_circuit app]. split; [reflexivity|].
  apply inverse_qft_qft_identity.
Qed.

(** X12: [apply_qft(qc, n)] on a circuit of fewer than n qubits raises
    the framework's index error, on the qubit index equal to the circuit's
    width. *)
Theorem apply_qft_narrow_circuit (qc : QuantumCircuit) (n : nat) :
  (num_qubits qc < n)%nat ->
  apply_qft qc n
  = Raise (CircuitIndexError (num_qubits qc) (num_qubits qc)).
Proof.
  intros L. unfold apply_qft, qft_gates, range.
  rewrite Nat.sub_0_r.
  destruct n as [|n]; [lia|]. cbn [seq flat_map].
  destruct (num_qubits qc) as [|s] eqn:Hs.
  - cbn [app].
    apply (extend_first_error [] (H 0)); [constructor|].
    rewrite Hs. reflexivity.
  - replace (S n - (0 + 1))%nat with (s + S (n - S s))%nat by lia.
    rewrite seq_app, map_app. cbn [seq map Nat.add].
    rewrite <- !app_assoc. cbn [app]. rewrite <- !app_assoc.
    apply (extend_first_error
             (H 0 :: map (fun j => CP (PI / 2 ^ (j - 0)) j 0) (seq 1 s))
             (CP (PI / 2 ^ (S s - 0)) (S s) 0)).
    + rewrite Hs. constructor; [simpl; lia|].
      apply Forall_forall. intros h Hh.
      apply in_map_iff in Hh as (j & <- & Hj). apply in_seq in Hj. simpl. lia.
    + rewrite Hs. cbn [check_gate]. unfold check_qubit.
      rewrite Nat.ltb_irrefl. reflexivity.
Qed.

Lemma apply_qft_narrow_circuit_witness :
  apply_qft (new_circuit 2) 3 = Raise (CircuitIndexError 2 2).
Proof.
  apply (apply_qft_narrow_circuit (new_circuit 2) 3). simpl. lia.
Defined.

(** X13: [test_qft] on any non-empty list of n integers builds a
    circuit that reports every n-bit key with the same probability 1/2^n:
    the measured counts of the transform of a basis state carry no trace of
    the input.  (On the empty list [get_counts] raises.) *)
Theorem test_qft_uniform (input_state : list Z) (key : string) :
  input_state <> [] ->
  String.length key = List.length input_state ->
  bitstring key = true ->
  exists qc,
    test_qft input_state = Ok qc /\
    outcome_prob qc key = (/ 2) ^ List.length input_state.
Proof.
  intros NE L B. eexists. split; [apply test_qft_ok; exact NE|].
  set (n := List.length input_state).
  unfold outcome_prob. cbn [measured num_qubits].
  rewrite L, Nat.eqb_refl, B. cbn [andb]. fold n.
  rewrite marginal_all. unfold final_state. cbn [data]. rewrite run_app.
  pose proof (input_gates_shape input_state) as Sh. fold n in Sh.
  assert (forallb classical (input_gates input_state) = true) as Cl.
  { apply forallb_forall. intros g Hg. rewrite Forall_forall in Sh.
    destruct (Sh g Hg) as (i & -> & _). reflexivity. }
  assert (Forall (wf_gate n) (input_gates input_state)) as W.
  { eapply Forall_impl; [|exact Sh]. intros g (i & -> & Li). exact Li. }
  set (v := crun (input_gates input_state) 0).
  assert (in_range n v = true) as Hv.
  { subst v. rewrite Keys.crun_in_range by exact W. apply in_range_zero. }
  assert (uniform n (run (qft_gates n) (run (input_gates input_state) (basis 0))))
    as U.
  { eapply uniform_ext; [|apply (qft_basis_uniform n v Hv)].
    apply run_ext. apply (run_basis n); assumption. }
  rewrite U.
  pose proof (BernsteinVazirani.in_range_int_of_bits key) as Hk.
  rewrite L in Hk. fold n in Hk. rewrite Hk. reflexivity.
Qed.

Lemma test_qft_uniform_witness :
  exists qc,
    test_qft [1; 0; 1]%Z = Ok qc /\
    outcome_prob qc "110" = (/ 2) ^ 3.
Proof.
  apply (test_qft_uniform [1; 0; 1]%Z "110");
    [discriminate | reflexivity | reflexivity].
Defined.

End QFTProps.

(* ================================================================== *)
(** ** QKNN.ipynb: the swap test *)
(* ================================================================== *)

Module SwapTest.
Import Amp Bits Circuit Sem Py Product.

(** The calls of this notebook: the gates of the other notebooks, the
    rotation [qc.ry(theta, q)] and the controlled swap
    [qc.cswap(c, a, b)]. *)
Inductive instr : Type :=
| G (g : gate)
| RY (theta : R) (q : nat)
| CSWAP (c a b : nat).

Definition xapply (i : instr) (s : state) : state :=
  match i with
  | G g => apply g s
  | RY theta q => fun x =>
      if bit x q
      then add (scale (sin (theta / 2)) (s (set0 q x)))
               (scale (cos (theta / 2)) (s (set1 q x)))
      else add (scale (cos (theta / 2)) (s (set0 q x)))
               (neg (scale (sin (theta / 2)) (s (set1 q x))))
  | CSWAP c a b => fun x => s (if bit x c then swapbits a b x else x)
  end.

Fixpoint xrun (prog : list instr) (s : state) : state :=
  match prog with
  | [] => s
  | i :: rest => xrun rest (xapply i s)
  end.

(** [encode_vector]: the gate of the one-qubit circuit it returns; only
    the first component of the vector is read. *)
Definition encode_vector (vector : R * R) : list instr :=
  [RY (2 * acos (fst vector)) 0].

(** [compose(other, qubits=[q])] of a one-qubit circuit: its gates moved
    to qubit [q]. *)
Definition compose_on (q : nat) (other : list instr) : list instr :=
  map (fun i => match i with
                | RY theta _ => RY theta q
                | G (H _) => G (H q)
                | G (X _) => G (X q)
                | other_instr => other_instr
                end) other.

(** [swap_test]: the instructions of the 3-qubit circuit it returns; the
    circuit ends with the measurement of qubit 0 into the one classical
    bit. *)
Definition swap_test (vector1 vector2 : R * R) : list instr :=
  let encoded_vec1 := encode_vector vector1 in
  let encoded_vec2 := encode_vector vector2 in
  compose_on 1 encoded_vec1 ++ compose_on 2 encoded_vec2
  ++ [G (H 0); CSWAP 0 1 2; G (H 0)].

(** Probability that one shot of the swap-test circuit reports the key 0. *)
Definition prob_0 (vector1 vector2 : R * R) : R :=
  marginal 3 1 (xrun (swap_test vector1 vector2) (basis 0)) 0.

(** The rotation on one qubit. *)
Definition ryq (theta : R) (v : qubit) : qubit :=
  (add (scale (cos (theta / 2)) (fst v)) (neg (scale (sin (theta / 2)) (snd v))),
   add (scale (sin (theta / 2)) (fst v)) (scale (cos (theta / 2)) (snd v))).

(** The overlap of the two encoded states. *)
Definition overlap (a b : R) : R :=
  a * b + sqrt (1 - a * a) * sqrt (1 - b * b).

Lemma xapply_RY_product m f theta q :
  (q < m)%nat ->
  xapply (RY theta q) (prod_state m f) == prod_state m (upd f q (ryq theta (f q))).
Proof.
  intros L x. simpl. unfold prod_state.
  rewrite in_range_set0, in_range_set1 by exact L.
  destruct (in_range m x).
  - rewrite (product_at q m f f x (set0 q x) L) by (auto using bit_set0_other).
    rewrite (product_at q m f f x (set1 q x) L) by (auto using bit_set1_other).
    rewrite (product_at q m f (upd f q (ryq theta (f q))) x x L)
      by (auto using upd_other).
    generalize (bigprod m (fun i => if (i =? q)%nat then one else amp f x i)) as r.
    intros r. unfold amp. rewrite bit_set0_same, bit_set1_same, upd_same.
    destruct (bit x q); apply c_eq; simpl; ring.
  - destruct (bit x q); apply c_eq; simpl; ring.
Qed.

(** The state before the controlled swap: |+> on the control and the two
    encoded vectors. *)
Definition before_swap (a b : R) : nat -> qubit :=
  fun i => match i with
           | 0%nat => ket_plus
           | 1%nat => ((a, 0), (sqrt (1 - a * a), 0))
           | _ => ((b, 0), (sqrt (1 - b * b), 0))
           end.

Lemma ryq_encode a :
  -1 <= a <= 1 ->
  ryq (2 * acos a) ket0 = ((a, 0), (sqrt (1 - a * a), 0)).
Proof.
  intros Ha. unfold ryq, ket0. cbn [fst snd].
  replace (2 * acos a / 2) with (acos a) by field.
  rewrite cos_acos, sin_acos by exact Ha.
  replace (a²) with (a * a) by reflexivity.
  f_equal; apply c_eq; simpl; ring.
Qed.

Lemma xapply_ext i s t : s == t -> xapply i s == xapply i t.
Proof.
  intros E x. destruct i as [g|theta q|c a b]; simpl.
  - apply apply_ext. exact E.
  - rewrite !E. reflexivity.
  - apply E.
Qed.

Lemma swap_test_before_swap (v1 v2 : R * R) :
  -1 <= fst v1 <= 1 -> -1 <= fst v2 <= 1 ->
  xapply (G (H 0))
         (xapply (RY (2 * acos (fst v2)) 2)
                 (xapply (RY (2 * acos (fst v1)) 1) (basis 0)))
  == prod_state 3 (before_swap (fst v1) (fst v2)).
Proof.
  intros H1 H2.
  set (f0 := fun _ : nat => ket0).
  set (f1 := upd f0 1 (ryq (2 * acos (fst v1)) (f0 1%nat))).
  set (f2 := upd f1 2 (ryq (2 * acos (fst v2)) (f1 2%nat))).
  assert (xapply (RY (2 * acos (fst v1)) 1) (basis 0) == prod_state 3 f1) as E1.
  { eapply state_eq_trans.
    - apply xapply_ext. apply (basis_zero_product 3).
    - apply xapply_RY_product. lia. }
  assert (xapply (RY (2 * acos (fst v2)) 2)
                 (xapply (RY (2 * acos (fst v1)) 1) (basis 0))
          == prod_state 3 f2) as E2.
  { eapply state_eq_trans.
    - apply xapply_ext. exact E1.
    - apply xapply_RY_product. lia. }
  eapply state_eq_trans.
  { apply xapply_ext. exact E2. }
  eapply state_eq_trans.
  { cbn [xapply]. apply apply_H_product. lia. }
  apply prod_state_ext. intros i Hi.
  destruct i as [|[|[|i]]]; try lia; subst f2 f1 f0; unfold upd; cbn [Nat.eqb before_swap].
  - apply hq_ket0.
  - apply ryq_encode. exact H1.
  - apply ryq_encode. exact H2.
Qed.


(** Amplitude, after the controlled swap and the second Hadamard, of an
    index whose control bit is 0. *)
Lemma swap_tail_amplitude s x :
  bit x 0 = false ->
  xrun [CSWAP 0 1 2; G (H 0)] s x
  = scale (/ sqrt 2) (add (s x) (s (swapbits 1 2 (set1 0 x)))).
Proof.
  intros B. cbn [xrun xapply apply].
  rewrite bit_set0_same, bit_set1_same, B.
  replace (set0 0 x) with x; [reflexivity|].
  apply bit_ext. intros i. rewrite bit_set0.
  destruct (Nat.eqb_spec i 0) as [->|]; [rewrite B; reflexivity|].
  symmetry. apply andb_true_r.
Qed.

(** Evaluates the bit operations on constant indices. *)
Ltac eval_indices :=
  repeat match goal with
         | |- context [swapbits ?a ?b ?y] =>
             let v := eval vm_compute in (swapbits a b y) in
             change (swapbits a b y) with v
         | |- context [set1 ?q ?y] =>
             let v := eval vm_compute in (set1 q y) in
             change (set1 q y) with v
         | |- context [in_range ?m ?y] =>
             let v := eval vm_compute in (in_range m y) in
             change (in_range m y) with v
         | |- context [bit ?y ?i] =>
             let v := eval vm_compute in (bit y i) in
             change (bit y i) with v
         end.

Lemma swap_test_amplitude (v1 v2 : R * R) x :
  -1 <= fst v1 <= 1 -> -1 <= fst v2 <= 1 ->
  bit x 0 = false ->
  xrun (swap_test v1 v2) (basis 0) x
  = scale (/ sqrt 2)
          (add (prod_state 3 (before_swap (fst v1) (fst v2)) x)
               (prod_state 3 (before_swap (fst v1) (fst v2))
                           (swapbits 1 2 (set1 0 x)))).
Proof.
  intros H1 H2 B.
  rewrite <- !(swap_test_before_swap v1 v2 H1 H2).
  rewrite <- swap_tail_amplitude by exact B. reflexivity.
Qed.

(** The probability of the key 0 in terms of the overlap. *)
Lemma swap_test_formula (vector1 vector2 : R * R) :
  -1 <= fst vector1 <= 1 ->
  -1 <= fst vector2 <= 1 ->
  prob_0 vector1 vector2
  = (1 + overlap (fst vector1) (fst vector2) * overlap (fst vector1) (fst vector2)) / 2.
Proof.
  intros H1 H2. unfold prob_0, marginal.
  cbn [Nat.sub Nat.pow Nat.mul Nat.add seq map rsum fold_right].
  change (0 + N.of_nat 0 * 2 ^ N.of_nat 1)%N with 0%N.
  change (0 + N.of_nat 1 * 2 ^ N.of_nat 1)%N with 2%N.
  change (0 + N.of_nat 2 * 2 ^ N.of_nat 1)%N with 4%N.
  change (0 + N.of_nat 3 * 2 ^ N.of_nat 1)%N with 6%N.
  rewrite !(swap_test_amplitude vector1 vector2 _ H1 H2) by reflexivity.
  set (a := fst vector1) in *. set (b := fst vector2) in *.
  unfold prod_state. eval_indices. cbn beta iota.
  cbn [bigprod]. unfold amp. eval_indices. cbn beta iota.
  unfold before_swap, ket_plus. cbn [fst snd].
  assert (sqrt (1 - a * a) * sqrt (1 - a * a) = 1 - a * a) as Ea
      by (apply sqrt_sqrt; nra).
  assert (sqrt (1 - b * b) * sqrt (1 - b * b) = 1 - b * b) as Eb
      by (apply sqrt_sqrt; nra).
  pose proof inv_sqrt2_sq as Er.
  unfold overlap.
  set (sa := sqrt (1 - a * a)) in *. set (sb := sqrt (1 - b * b)) in *.
  set (r := / sqrt 2) in *.
  unfold norm2, scale, add, mul, one. cbn [fst snd].
  transitivity ((r * r) * (r * r)
                * (4 * (a * a) * (b * b)
                   + 2 * ((sa * sa) * (b * b) + 2 * a * b * sa * sb
                          + (a * a) * (sb * sb))
                   + 4 * (sa * sa) * (sb * sb))); [ring|].
  transitivity ((1 + (a * a) * (b * b) + 2 * a * b * sa * sb
                 + (sa * sa) * (sb * sb)) / 2); [|unfold Rdiv; ring].
  rewrite Er, Ea, Eb. field.
Qed.

(** X15: for two vectors whose first components a and b lie in
    [-1, 1], the swap-test circuit of [swap_test] reports the key 0 with
    probability (1 + o^2) / 2, where o = a b + sqrt(1 - a^2) sqrt(1 - b^2)
    is the overlap of the two encoded states; the second components of the
    vectors play no part. *)
Theorem swap_test_probability (vector1 vector2 : R * R) :
  -1 <= fst vector1 <= 1 ->
  -1 <= fst vector2 <= 1 ->
  prob_0 vector1 vector2
  = (1 + overlap (fst vector1) (fst vector2) * overlap (fst vector1) (fst vector2)) / 2.
Proof. apply swap_test_formula. Qed.

Lemma swap_test_probability_witness :
  prob_0 (3 / 5, 4 / 5) (4 / 5, 3 / 5)
  = (1 + overlap (3 / 5) (4 / 5) * overlap (3 / 5) (4 / 5)) / 2.
Proof.
  apply (swap_test_probability (3 / 5, 4 / 5) (4 / 5, 3 / 5)); simpl; lra.
Defined.


Lemma overlap_square_le_1 a b :
  -1 <= a <= 1 -> -1 <= b <= 1 -> overlap a b * overlap a b <= 1.
Proof.
  intros Ha Hb. unfold overlap.
  assert (sqrt (1 - a * a) * sqrt (1 - a * a) = 1 - a * a) as Ea
      by (apply sqrt_sqrt; nra).
  assert (sqrt (1 - b * b) * sqrt (1 - b * b) = 1 - b * b) as Eb
      by (apply sqrt_sqrt; nra).
  set (sa := sqrt (1 - a * a)) in *. set (sb := sqrt (1 - b * b)) in *.
  (* Lagrange: (a^2 + sa^2)(b^2 + sb^2) - (ab + sa sb)^2 = (a sb - sa b)^2 *)
  assert ((a * b + sa * sb) * (a * b + sa * sb)
          = 1 - (a * sb - sa * b) * (a * sb - sa * b)) as E.
  { transitivity ((a * a + sa * sa) * (b * b + sb * sb)
                  - (a * sb - sa * b) * (a * sb - sa * b)); [ring|].
    rewrite Ea, Eb. ring. }
  rewrite E. pose proof (Rle_0_sqr (a * sb - sa * b)) as P. unfold Rsqr in P. lra.
Qed.

(** X16: for first components in [-1, 1] the key 0 of the swap test
    has a probability between 1/2 and 1. *)
Theorem swap_test_probability_bounds (vector1 vector2 : R * R) :
  -1 <= fst vector1 <= 1 ->
  -1 <= fst vector2 <= 1 ->
  / 2 <= prob_0 vector1 vector2 <= 1.
Proof.
  intros H1 H2. rewrite swap_test_formula by assumption.
  pose proof (overlap_square_le_1 _ _ H1 H2) as Hle.
  pose proof (Rle_0_sqr (overlap (fst vector1) (fst vector2))) as Hge.
  unfold Rsqr in Hge. lra.
Qed.

Lemma swap_test_probability_bounds_witness :
  / 2 <= prob_0 (0, 1) (1, 0) <= 1.
Proof.
  apply (swap_test_probability_bounds (0, 1) (1, 0)); simpl; lra.
Defined.

(** X17: two vectors with the same first component in [-1, 1] cannot
    be told apart, whatever their second components: the swap test reports
    the key 0 with probability 1, and the distance computed from that
    probability is 0. *)
Theorem swap_test_same_first_component (vector1 vector2 : R * R) :
  fst vector1 = fst vector2 ->
  -1 <= fst vector1 <= 1 ->
  prob_0 vector1 vector2 = 1 /\
  QKNN.distance_of_prob (prob_0 vector1 vector2) = 0.
Proof.
  intros E H1.
  assert (prob_0 vector1 vector2 = 1) as P.
  { rewrite swap_test_formula by (rewrite <- ?E; exact H1).
    rewrite <- E. unfold overlap.
    assert (sqrt (1 - fst vector1 * fst vector1) * sqrt (1 - fst vector1 * fst vector1)
            = 1 - fst vector1 * fst vector1) as Ea by (apply sqrt_sqrt; nra).
    rewrite Ea. field_simplify. lra. }
  split; [exact P|]. rewrite P.
  unfold QKNN.distance_of_prob, QKNN.py_max.
  destruct (Rlt_dec 0 (2 * (1 - 1))); [lra|]. apply sqrt_0.
Qed.

Lemma swap_test_same_first_component_witness :
  prob_0 (3 / 5, 4 / 5) (3 / 5, - (4 / 5)) = 1 /\
  QKNN.distance_of_prob (prob_0 (3 / 5, 4 / 5) (3 / 5, - (4 / 5))) = 0.
Proof.
  apply (swap_test_same_first_component (3 / 5, 4 / 5) (3 / 5, - (4 / 5)));
    simpl; [reflexivity | lra].
Defined.

(** X14: when the count of the key 0 does not exceed a positive
    number of shots, the radicand 2 (1 - prob_0) is never negative, so the
    clamp has no effect and the estimate is sqrt(2 (1 - count/shots)); it
    lies between 0 and sqrt 2, is 0 exactly when every shot reported 0, and
    is sqrt 2 when none did (the key 0 missing from the counts). *)
Theorem estimate_distance_range (count_0 shots : nat) :
  (0 < shots)%nat ->
  (count_0 <= shots)%nat ->
  QKNN.estimate_distance count_0 shots
  = sqrt (2 * (1 - INR count_0 / INR shots)) /\
  0 <= QKNN.estimate_distance count_0 shots <= sqrt 2 /\
  (QKNN.estimate_distance count_0 shots = 0 <-> count_0 = shots) /\
  (count_0 = 0%nat -> QKNN.estimate_distance count_0 shots = sqrt 2).
Proof.
  intros Hs Hc.
  assert (0 < INR shots) as Ps by (apply lt_0_INR; exact Hs).
  assert (0 <= INR count_0) as Pc by apply pos_INR.
  assert (INR count_0 <= INR shots) as Lc by (apply le_INR; exact Hc).
  set (p := INR count_0 / INR shots).
  assert (0 <= p <= 1) as Hp.
  { subst p. unfold Rdiv. split.
    - apply Rmult_le_pos; [exact Pc|]. left. apply Rinv_0_lt_compat. exact Ps.
    - apply (Rmult_le_reg_r (INR shots)); [exact Ps|].
      rewrite Rmult_assoc, Rinv_l by lra. lra. }
  assert (QKNN.estimate_distance count_0 shots = sqrt (2 * (1 - p))) as E.
  { unfold QKNN.estimate_distance, QKNN.distance_of_prob, QKNN.py_max. fold p.
    destruct (Rlt_dec 0 (2 * (1 - p))) as [|N]; [reflexivity|].
    assert (2 * (1 - p) = 0) as -> by lra. reflexivity. }
  split; [exact E|]. rewrite E. split; [|split].
  - split; [apply sqrt_pos|]. apply sqrt_le_1_alt. lra.
  - split.
    + intros Z. apply sqrt_eq_0 in Z; [|lra].
      assert (p = 1) as P1 by lra. subst p.
      apply INR_eq. apply (Rmult_eq_reg_r (/ INR shots)).
      * rewrite Rinv_r by lra. exact P1.
      * apply Rinv_neq_0_compat. lra.
    + intros ->. subst p. unfold Rdiv. rewrite Rinv_r by lra.
      replace (2 * (1 - 1)) with 0 by ring. apply sqrt_0.
  - intros ->. subst p. simpl. unfold Rdiv. rewrite Rmult_0_l.
    f_equal. ring.
Qed.

Lemma estimate_distance_range_witness :
  QKNN.estimate_distance 1000 1024
  = sqrt (2 * (1 - INR 1000 / INR 1024)) /\
  0 <= QKNN.estimate_distance 1000 1024 <= sqrt 2 /\
  (QKNN.estimate_distance 1000 1024 = 0 <-> 1000%nat = 1024%nat) /\
  (1000%nat = 0%nat -> QKNN.estimate_distance 1000 1024 = sqrt 2).
Proof.
  apply (estimate_distance_range 1000 1024); lia.
Defined.

End SwapTest.

(* ================================================================== *)
(** ** Quantum phase estimation notebook *)
(* ================================================================== *)

Module QPE.
Import Amp Bits Circuit Sem Py Product Uniform.

Local Open Scope string_scope.

(** The calls of this notebook: the gates of the other notebooks and the
    phase gate [qc.p(theta, q)]. *)
Inductive instr : Type :=
| G (g : gate)
| P (theta : R) (q : nat).

(** A circuit with a classical register of its own size: the qubits
    0 .. width-1 are measured, in order, into the classical bits
    offset .. offset+width-1; the classical bits below [offset] are never
    written. *)
Record circuit : Type := mkC {
  width : nat;
  clbits : nat;
  prog : list instr;
  offset : nat
}.

Definition papply (i : instr) (s : state) : state :=
  match i with
  | G g => apply g s
  | P theta q => fun x => if bit x q then mul (expi theta) (s x) else s x
  end.

Fixpoint prun (l : list instr) (s : state) : state :=
  match l with
  | [] => s
  | i :: rest => prun rest (papply i s)
  end.

(** The framework's check of the qubits of a call. *)
Definition check_instr (size : nat) (i : instr) : result unit :=
  match i with
  | G g => check_gate size g
  | P _ q => check_qubit size q
  end.

Fixpoint pextend (c : circuit) (l : list instr) : result circuit :=
  match l with
  | [] => Ok c
  | i :: rest =>
      _ <- check_instr (width c) i ;;
      pextend (mkC (width c) (clbits c) (prog c ++ [i]) (offset c)) rest
  end.

(** A two-qubit gate object, given by the instructions it stands for on
    the pair of qubits it is appended to. *)
Definition gate2 : Type := nat -> nat -> list instr.

(** [phase_shift_unitary(theta)]: the gate of a 2-qubit circuit with
    [p(theta, 1)], a phase on its second qubit. *)
Definition phase_shift_unitary (theta : R) : gate2 :=
  fun _ q1 => [P theta q1].

(** [qc.append(unitary, [a, b])]: the qubits must be in range and
    distinct. *)
Definition append_gate2 (c : circuit) (unitary : gate2) (a b : nat)
  : result circuit :=
  _ <- check_qubit (width c) a ;;
  _ <- check_qubit (width c) b ;;
  if (a =? b)%nat then Raise (CircuitDuplicateError a)
  else pextend c (unitary a b).

(** The pairs [j, i] of the double loop of [apply_qpe], in order. *)
Definition qpe_pairs (n_qubits : nat) : list (nat * nat) :=
  flat_map (fun i => map (fun j => (j, i)) (range (i + 1) n_qubits))
           (range 0 n_qubits).

Fixpoint append_all (c : circuit) (unitary : gate2) (pairs : list (nat * nat))
  : result circuit :=
  match pairs with
  | [] => Ok c
  | (a, b) :: rest =>
      c' <- append_gate2 c unitary a b ;; append_all c' unitary rest
  end.

(** [result.get_counts()] for a simulated circuit: the result of a
    circuit that measured no qubit holds no counts, and asking for them
    raises. *)
Definition get_counts (c : circuit) : result circuit :=
  if (width c =? 0)%nat then Raise NoCountsError else Ok c.

(** [run_qpe]: the circuit whose counts it returns, or the error raised
    on the way.  The circuit is that of [apply_qpe] with
    [n_qubits = len(input_state)], so that the classical register has
    2 n_qubits bits and the measurement fills its upper half; the
    measurement copies every qubit of the circuit, so that nothing is
    measured exactly when the circuit has no qubit. *)
Definition run_qpe (input_state : string) (unitary : gate2) : result circuit :=
  let n_qubits := String.length input_state in
  let qc := mkC n_qubits (String.length input_state + n_qubits) [] 0 in
  qc <- pextend qc (map G (BinaryShift.init_gates input_state)) ;;
  qc <- pextend qc (map (fun q => G (H q)) (range 0 n_qubits)) ;;
  qc <- append_all qc unitary (qpe_pairs n_qubits) ;;
  get_counts (mkC (width qc) (clbits qc) (prog qc) n_qubits).

Definition is_zero (c : ascii) : bool := Ascii.eqb c "0"%char.

(** Probability with which one shot reports [key]: its leading
    characters spell the measured qubits, its trailing [offset] characters
    are the unwritten classical bits, which read 0. *)
Definition outcome_prob (c : circuit) (key : string) : R :=
  let cs := chars key in
  let hi := firstn (width c) cs in
  let lo := skipn (width c) cs in
  if ((List.length cs =? clbits c)%nat
      && (clbits c =? width c + offset c)%nat
      && forallb is_bit hi && forallb is_zero lo)%bool
  then norm2 (prun (prog c) (basis 0) (int_of_bits (string_of_list_ascii hi)))
  else 0%R.


(** [n] characters 0. *)
Definition zeros (n : nat) : string := string_of_list_ascii (repeat "0"%char n).

Definition instr_ok (size : nat) (i : instr) : Prop :=
  match i with
  | G g => wf_gate size g
  | P _ q => (q < size)%nat
  end.

Lemma pextend_ok l : forall c,
  Forall (instr_ok (width c)) l ->
  pextend c l = Ok (mkC (width c) (clbits c) (prog c ++ l) (offset c)).
Proof.
  induction l as [|i rest IH]; intros c F.
  - simpl. rewrite app_nil_r. destruct c; reflexivity.
  - inversion F as [|? ? Wi Wr]; subst. cbn [pextend].
    assert (check_instr (width c) i = Ok tt) as ->.
    { destruct i as [g|theta q]; simpl in *.
      - apply check_gate_wf. exact Wi.
      - unfold check_qubit. apply Nat.ltb_lt in Wi. rewrite Wi. reflexivity. }
    cbn [bind]. rewrite IH by exact Wr. cbn [width clbits prog offset].
    rewrite <- app_assoc. reflexivity.
Qed.

Lemma append_all_phase theta pairs : forall c,
  Forall (fun '(a, b) => (a < width c)%nat /\ (b < width c)%nat /\ a <> b) pairs ->
  append_all c (phase_shift_unitary theta) pairs
  = Ok (mkC (width c) (clbits c)
            (prog c ++ map (fun '(_, b) => P theta b) pairs) (offset c)).
Proof.
  induction pairs as [|[a b] rest IH]; intros c F.
  - simpl. rewrite app_nil_r. destruct c; reflexivity.
  - inversion F as [|? ? Hab Fr]; subst.
    simpl in Hab. destruct Hab as (La & Lb & NE).
    cbn [append_all]. unfold append_gate2, check_qubit.
    apply Nat.ltb_lt in La, Lb. rewrite La, Lb. cbn [bind].
    apply Nat.eqb_neq in NE. rewrite NE.
    unfold phase_shift_unitary. cbn [pextend check_instr]. unfold check_qubit.
    rewrite Lb. cbn [bind]. rewrite IH by exact Fr.
    cbn [width clbits prog offset map]. rewrite <- app_assoc. reflexivity.
Qed.

Lemma qpe_pairs_ok n :
  Forall (fun '(a, b) => (a < n)%nat /\ (b < n)%nat /\ a <> b) (qpe_pairs n).
Proof.
  unfold qpe_pairs, range. apply Forall_forall. intros [a b] Hin.
  apply in_flat_map in Hin as (i & Hi & Hin). apply in_seq in Hi.
  apply in_map_iff in Hin as (j & E & Hj). apply in_seq in Hj.
  inversion E; subst. lia.
Qed.

(** The instructions of the circuit [run_qpe] builds for the phase gate. *)
Definition qpe_prog (theta : R) (input_state : string) : list instr :=
  let n := String.length input_state in
  (map G (BinaryShift.init_gates input_state)
   ++ map (fun q => G (H q)) (seq 0 n)
   ++ map (fun '(_, b) => P theta b) (qpe_pairs n))%list.

Lemma run_qpe_ok theta input_state :
  (1 <= String.length input_state)%nat ->
  run_qpe input_state (phase_shift_unitary theta)
  = Ok (mkC (String.length input_state)
            (String.length input_state + String.length input_state)
            (qpe_prog theta input_state)
            (String.length input_state)).
Proof.
  intros L1. unfold run_qpe, qpe_prog. set (n := String.length input_state) in *.
  rewrite pextend_ok.
  - cbn [bind width clbits prog offset app].
    rewrite pextend_ok.
    + cbn [bind width clbits prog offset].
      rewrite append_all_phase by (cbn [width]; apply qpe_pairs_ok).
      cbn [bind width clbits prog offset].
      unfold get_counts. cbn [width].
      assert ((n =? 0)%nat = false) as -> by (apply Nat.eqb_neq; lia).
      unfold range. rewrite Nat.sub_0_r, <- app_assoc. reflexivity.
    + cbn [width]. unfold range. rewrite Nat.sub_0_r.
      apply Forall_forall. intros i Hi.
      apply in_map_iff in Hi as (q & <- & Hq). apply in_seq in Hq. simpl. lia.
  - cbn [width]. apply Forall_forall. intros i Hi.
    apply in_map_iff in Hi as (g & <- & Hg). unfold BinaryShift.init_gates in Hg.
    apply in_flat_map in Hg as ([k c] & Hin & Hg).
    apply enumerate_from_bound in Hin. rewrite length_rev, length_chars in Hin.
    destruct (is_one c); simpl in Hg; [|contradiction].
    destruct Hg as [<-|[]]. simpl. lia.
Qed.

Lemma prun_app l1 l2 s : prun (l1 ++ l2) s = prun l2 (prun l1 s).
Proof.
  revert s. induction l1 as [|i rest IH]; intros s; simpl; [reflexivity|apply IH].
Qed.

Lemma prun_gates gs : forall s, prun (map G gs) s = run gs s.
Proof.
  induction gs as [|g rest IH]; intros s; simpl; [reflexivity|apply IH].
Qed.

Lemma papply_ext i s t : s == t -> papply i s == papply i t.
Proof.
  intros E x. destruct i as [g|theta q]; simpl.
  - apply apply_ext. exact E.
  - rewrite E. reflexivity.
Qed.

Lemma prun_ext l : forall s t, s == t -> prun l s == prun l t.
Proof.
  induction l as [|i rest IH]; intros s t E; simpl; [exact E|].
  apply IH, papply_ext, E.
Qed.

(** The phase gate on one qubit of a product state. *)
Lemma papply_P_product m f theta q :
  (q < m)%nat ->
  papply (P theta q) (prod_state m f) == prod_state m (upd f q (pq theta (f q))).
Proof.
  intros L x. simpl. unfold prod_state.
  destruct (in_range m x); [|destruct (bit x q); [apply mul_zero_r|reflexivity]].
  rewrite (product_at q m f f x x L) by auto.
  rewrite (product_at q m f (upd f q (pq theta (f q))) x x L)
    by (auto using upd_other).
  generalize (bigprod m (fun i => if (i =? q)%nat then one else amp f x i)) as r.
  intros r. unfold amp. rewrite upd_same.
  destruct (bit x q); cbn [pq fst snd]; [apply mul_assoc|reflexivity].
Qed.

Lemma prun_phases_balanced n theta qs : forall f,
  Forall (fun q => (q < n)%nat) qs ->
  (forall i, (i < n)%nat -> balanced (f i)) ->
  exists f', prun (map (P theta) qs) (prod_state n f) == prod_state n f' /\
             (forall i, (i < n)%nat -> balanced (f' i)).
Proof.
  induction qs as [|q rest IH]; intros f F Hb.
  - exists f. split; [apply state_eq_refl|exact Hb].
  - inversion F as [|? ? Lq Fr]; subst.
    destruct (IH (upd f q (pq theta (f q))) Fr) as (f' & E & Hb').
    + intros i Li. unfold upd. destruct (Nat.eqb_spec i q) as [->|].
      * apply balanced_pq, Hb. exact Lq.
      * apply Hb. exact Li.
    + exists f'. split; [|exact Hb'].
      cbn [map prun]. eapply state_eq_trans; [|exact E].
      apply prun_ext. apply papply_P_product. exact Lq.
Qed.


Lemma chars_append a b : chars (a ++ b) = (chars a ++ chars b)%list.
Proof.
  unfold chars. induction a as [|c a IH]; simpl; [reflexivity|].
  rewrite IH. reflexivity.
Qed.

Lemma chars_zeros n : chars (zeros n) = repeat "0"%char n.
Proof. unfold chars, zeros. apply list_ascii_of_string_of_list_ascii. Qed.

Lemma forallb_is_zero_repeat n : forallb is_zero (repeat "0"%char n) = true.
Proof. induction n as [|n IH]; simpl; [reflexivity|exact IH]. Qed.

(** The state that the circuit of [run_qpe] leaves has uniform weights. *)
Lemma qpe_state_uniform theta input_state :
  uniform (String.length input_state)
          (prun (qpe_prog theta input_state) (basis 0)).
Proof.
  set (n := String.length input_state).
  unfold qpe_prog. fold n. rewrite !prun_app, prun_gates.
  assert (Forall (wf_gate n) (BinaryShift.init_gates input_state)) as W
      by (apply BinaryShift.init_gates_wf, BinaryShift.ones_within_short; subst n; lia).
  set (v := crun (BinaryShift.init_gates input_state) 0).
  assert (in_range n v = true) as Hv
      by (subst v; rewrite Keys.crun_in_range by exact W; apply in_range_zero).
  set (f1 := fun i : nat =>
               if (i <? n)%nat then hq (if bit v i then ket1 else ket0)
               else (if bit v i then ket1 else ket0)).
  assert (prun (map (fun q => G (H q)) (seq 0 n))
               (run (BinaryShift.init_gates input_state) (basis 0))
          == prod_state n f1) as E1.
  { rewrite <- (map_map H G), prun_gates.
    eapply state_eq_trans.
    - apply run_ext. eapply state_eq_trans.
      + apply (run_basis n); [apply ShiftProps.init_gates_classical|exact W].
      + apply (QFTProps.basis_product n). exact Hv.
    - apply (run_H_layer n _ n). lia. }
  assert (forall i, (i < n)%nat -> balanced (f1 i)) as B1.
  { intros i Li. subst f1. cbn beta.
    apply Nat.ltb_lt in Li. rewrite Li. apply balanced_hq.
    destruct (bit v i); [apply basis_ket_ket1|apply basis_ket_ket0]. }
  assert (map (fun '(_, b) => P theta b) (qpe_pairs n)
          = map (P theta) (map snd (qpe_pairs n))) as ->.
  { rewrite map_map. apply map_ext. intros [a b]. reflexivity. }
  destruct (prun_phases_balanced n theta (map snd (qpe_pairs n)) f1) as (f' & E' & B').
  - apply Forall_forall. intros q Hq.
    apply in_map_iff in Hq as ([a b] & <- & Hin).
    pose proof (qpe_pairs_ok n) as F. rewrite Forall_forall in F.
    specialize (F _ Hin). simpl in *. lia.
  - exact B1.
  - eapply uniform_ext.
    + eapply state_eq_trans; [apply prun_ext, E1|exact E'].
    + apply balanced_product_uniform. exact B'.
Qed.

(** On the empty input string the circuit has no qubit, nothing is
    measured and [get_counts] raises. *)
Lemma run_qpe_empty theta :
  run_qpe "" (phase_shift_unitary theta) = Raise NoCountsError.
Proof. reflexivity. Qed.

(** X18: for the phase gate of [phase_shift_unitary], whatever the
    angle and whatever the non-empty input string of n characters, the
    circuit of [run_qpe] reports each key made of n bits followed by n
    characters 0 with the same probability 1/2^n: the counts do not depend
    on the angle to be estimated.  (On the empty string [get_counts]
    raises.) *)
Theorem qpe_phase_shift_uniform (theta : R) (input_state k : string) :
  (1 <= String.length input_state)%nat ->
  String.length k = String.length input_state ->
  bitstring k = true ->
  exists qc,
    run_qpe input_state (phase_shift_unitary theta) = Ok qc /\
    outcome_prob qc (k ++ zeros (String.length input_state))
    = (/ 2) ^ String.length input_state.
Proof.
  intros L1 L B. eexists. split; [apply run_qpe_ok; exact L1|].
  set (n := String.length input_state) in *.
  unfold outcome_prob. cbn [width clbits prog offset].
  rewrite chars_append, chars_zeros.
  assert (List.length (chars k) = n) as Lk by (rewrite length_chars; exact L).
  rewrite firstn_app, skipn_app, Lk, Nat.sub_diag.
  replace (firstn n (chars k)) with (chars k)
    by (rewrite <- Lk; symmetry; apply firstn_all).
  replace (skipn n (chars k)) with (@nil ascii)
    by (rewrite <- Lk; symmetry; apply skipn_all).
  cbn [firstn skipn app]. rewrite app_nil_r.
  rewrite length_app, repeat_length, Lk, !Nat.eqb_refl.
  fold (bitstring k). rewrite B, forallb_is_zero_repeat. cbn [andb].
  unfold chars. rewrite string_of_list_ascii_of_string.
  rewrite (qpe_state_uniform theta input_state). fold n.
  pose proof (BernsteinVazirani.in_range_int_of_bits k) as Hk.
  rewrite L in Hk. rewrite Hk. reflexivity.
Qed.

Lemma qpe_phase_shift_uniform_witness :
  exists qc,
    run_qpe "0" (phase_shift_unitary (PI / 4)) = Ok qc /\
    outcome_prob qc ("1" ++ zeros 1) = (/ 2) ^ 1.
Proof.
  apply (qpe_phase_shift_uniform (PI / 4) "0" "1");
    [simpl; lia | reflexivity | reflexivity].
Defined.

End QPE.
